(** * The elolist rating engine of [src/main.ts], embedded in Rocq

    The development follows the source file top to bottom: the numbers and
    strings of the host language, the data structures, [estimateElo], the two
    parsers and finally the rating updater, which mutates objects and is
    therefore modelled over an explicit store.

    Numbers.  A JavaScript number is modelled as [NaN] or an exact rational:
    arithmetic on the finite values that ratings take is treated as exact, and
    the infinities are left out.  [NaN] is kept, because the source stores it
    in unparseable relations and it decides several of the properties below.

    The host computes in binary64, so a property stated over the exact
    numbers carries over to it when it rests on the order of the operations,
    on comparisons and on values copied from one place to another, or when
    the values are whole numbers small enough to be added without rounding.
    Where the rounding itself decides, the estimator and the updater are
    read once more over binary64 numbers, in the module [B64]. *)

From Stdlib Require Import PrimFloat.
From Stdlib Require Import ZArith QArith Qabs Qround Qminmax Qpower Lqa Lia.
From Stdlib Require Import Bool Sorted.
From Stdlib Require Import Ascii String DecimalString.
From stdpp Require Import gmap list.

(** ** Host numbers *)

Module JS.

Inductive number : Type :=
  | NaN
  | Num (q : Q).

Definition lift2 (f : Q -> Q -> Q) (a b : number) : number :=
  match a, b with
  | Num x, Num y => Num (f x y)
  | _, _ => NaN
  end.

Definition add : number -> number -> number := lift2 Qplus.
Definition sub : number -> number -> number := lift2 Qminus.
Definition mul : number -> number -> number := lift2 Qmult.

(** [x / 0] is an infinity (or [NaN]) in the host; the model has no
    infinities and answers [NaN].  The engine only divides by [400] and by
    [1 + Math.pow(10, _)]. *)
Definition div (a b : number) : number :=
  match a, b with
  | Num x, Num y => if Qeq_bool y 0 then NaN else Num (x / y)
  | _, _ => NaN
  end.

(** Comparisons: every comparison with [NaN] is false. *)
Definition leb (a b : number) : bool :=
  match a, b with
  | Num x, Num y => Qle_bool x y
  | _, _ => false
  end.

Definition ltb (a b : number) : bool :=
  match a, b with
  | Num x, Num y => negb (Qle_bool y x)
  | _, _ => false
  end.

Definition eqb (a b : number) : bool :=
  match a, b with
  | Num x, Num y => Qeq_bool x y
  | _, _ => false
  end.

Definition isNaN (a : number) : bool :=
  match a with
  | NaN => true
  | Num _ => false
  end.

Definition Math_min (a b : number) : number :=
  match a, b with
  | Num x, Num y => Num (if Qle_bool x y then x else y)
  | _, _ => NaN
  end.

Definition Math_max (a b : number) : number :=
  match a, b with
  | Num x, Num y => Num (if Qle_bool x y then y else x)
  | _, _ => NaN
  end.

Definition Math_abs (a : number) : number :=
  match a with
  | Num x => Num (Qabs x)
  | NaN => NaN
  end.

(** Numeric equality of two host values: rationals are compared as
    fractions, not as pairs of numerator and denominator. *)
Definition same (a b : number) : Prop :=
  match a, b with
  | NaN, NaN => True
  | Num x, Num y => x == y
  | _, _ => False
  end.

Definition finite (a : number) : Prop :=
  match a with
  | Num _ => True
  | NaN => False
  end.

Definition of_Z (z : Z) : number := Num (inject_Z z).

End JS.

Import JS.

Declare Scope js_scope.
Delimit Scope js_scope with js.
Bind Scope js_scope with number.
Infix "+" := add : js_scope.
Infix "-" := sub : js_scope.
Infix "*" := mul : js_scope.
Infix "/" := div : js_scope.
Infix "<=?" := leb : js_scope.
Infix "<?" := ltb : js_scope.
Infix "==?" := eqb (at level 70) : js_scope.
Notation "a ≈ b" := (same a b) (at level 70).

Coercion of_Z : Z >-> number.

(** ** Data structures *)

Inductive EloRelationOp : Type := eq_op | gt_op | lt_op | nop_op.

Record EloRelation : Type := mkRel {
  op : EloRelationOp;
  value : number
}.

(** ** Config *)

Definition ITEM_INCUBATION_TIME : nat := 4.
Definition DEFAULT_ELO : number := of_Z 600.

(** ** [estimateElo] *)

Section Estimate.

Local Open Scope js_scope.

(** [item.eloRelations[i]] for an index the loops keep in range. *)
Definition rel_at (eloRelations : list EloRelation) (i : nat) : EloRelation :=
  nth i eloRelations (mkRel nop_op NaN).

(** One round of the first loop: the switch on [eloRelations[i].op].  The
    source reads the value at index [1] in every case, whatever [i] is. *)
Definition bounds_step (eloRelations : list EloRelation)
    (acc : number * number) (i : nat) : number * number :=
  let '(minElo, maxElo) := acc in
  match op (rel_at eloRelations i) with
  | eq_op =>
      (Math_min (value (rel_at eloRelations 1)) minElo,
       Math_max (value (rel_at eloRelations 1)) maxElo)
  | lt_op => (Math_min (value (rel_at eloRelations 1)) minElo, maxElo)
  | gt_op => (minElo, Math_max (value (rel_at eloRelations 1)) maxElo)
  | nop_op => (minElo, maxElo)
  end.

(** "determine bounds": seed from index [0], loop over [1 .. length-1], then
    step one further out on both sides. *)
Definition bounds (eloRelations : list EloRelation) : number * number :=
  let seed := value (rel_at eloRelations 0) in
  let '(minElo, maxElo) :=
    fold_left (bounds_step eloRelations)
              (seq 1 (length eloRelations - 1)) (seed, seed) in
  (minElo - 1%Z, maxElo + 1%Z).

(** The switch of the inner loop; [relError] starts at [0] and the [nop]
    case has no branch. *)
Definition relError (r : EloRelation) (testElo : number) : number :=
  match op r with
  | eq_op => Math_abs (value r - testElo)
  | lt_op => Math_max 0%Z (testElo - value r + 1%Z)
  | gt_op => Math_max 0%Z (value r - testElo + 1%Z)
  | nop_op => 0%Z
  end.

(** The inner loop: [error += relError * relError] over all relations. *)
Definition totalError (eloRelations : list EloRelation) (testElo : number)
    : number :=
  fold_left (fun error r => error + relError r testElo * relError r testElo)
            eloRelations (of_Z 0).

(** The outer loop [for (testElo = minElo; testElo <= maxElo; testElo += 1)].
    [fuel] bounds the number of rounds; the loop state is
    [(testElo, bestError, bestTestElo)].  When the guard fails the loop is
    over and [bestTestElo] is what [estimateElo] returns. *)
Fixpoint search (fuel : nat) (eloRelations : list EloRelation)
    (minElo maxElo testElo bestError bestTestElo : number) : number :=
  if testElo <=? maxElo then
    match fuel with
    | O => bestTestElo
    | S fuel' =>
        let error := totalError eloRelations testElo in
        if (testElo ==? minElo) || (error <? bestError) then
          search fuel' eloRelations minElo maxElo (testElo + 1%Z) error testElo
        else
          search fuel' eloRelations minElo maxElo (testElo + 1%Z)
                 bestError bestTestElo
    end
  else bestTestElo.

(** The number of rounds the loop makes from [minElo] up to [maxElo], over
    the exact numbers.  (Over binary64 numbers of 2^53 and more [testElo += 1]
    does not move and the loop does not end: see [B64.search].) *)
Definition rounds (minElo maxElo : number) : nat :=
  match minElo, maxElo with
  | Num lo, Num hi => Z.to_nat (Qfloor (hi - lo) + 1)
  | _, _ => O
  end.

Definition estimateElo (eloRelations : list EloRelation) : number :=
  match eloRelations with
  | _ :: _ =>
      let '(minElo, maxElo) := bounds eloRelations in
      search (rounds minElo maxElo) eloRelations minElo maxElo minElo
             (of_Z 0) (of_Z 0)
  | [] => DEFAULT_ELO
  end.

End Estimate.

Definition Eq (q : Q) := mkRel eq_op (Num q).
Definition Lt (q : Q) := mkRel lt_op (Num q).
Definition Gt (q : Q) := mkRel gt_op (Num q).
Definition Nop := mkRel nop_op NaN.


(** ** Host strings

    A string is the list of its UTF-16 code units. *)

Definition jsstring : Type := list N.

Definition js (s : string) : jsstring :=
  map N_of_ascii (list_ascii_of_string s).

Section Strings.

Local Open Scope N_scope.

(** The characters [String.prototype.trim] removes: white space and line
    terminators. *)
Definition isWhiteSpace (c : N) : bool :=
  (c =? 9) || (c =? 10) || (c =? 11) || (c =? 12) || (c =? 13) || (c =? 32)
  || (c =? 160) || (c =? 5760) || ((8192 <=? c) && (c <=? 8202))
  || (c =? 8232) || (c =? 8233) || (c =? 8239) || (c =? 8287)
  || (c =? 12288) || (c =? 65279).

Fixpoint trimStart (s : jsstring) : jsstring :=
  match s with
  | c :: s' => if isWhiteSpace c then trimStart s' else s
  | [] => []
  end.

Definition trimEnd (s : jsstring) : jsstring := rev (trimStart (rev s)).

Definition trim (s : jsstring) : jsstring := trimEnd (trimStart s).

(** [s.split(sep)] for a one-character separator; [cur] is the piece being
    read.  The empty string splits into one empty piece. *)
Fixpoint split_from (sep : N) (cur s : jsstring) : list jsstring :=
  match s with
  | [] => [cur]
  | c :: s' =>
      if c =? sep then cur :: split_from sep [] s'
      else split_from sep (cur ++ [c]) s'
  end.

Definition split (sep : N) (s : jsstring) : list jsstring :=
  split_from sep [] s.

Definition LPAREN : N := 40.
Definition RPAREN : N := 41.
Definition COMMA : N := 44.
Definition LESS : N := 60.
Definition GREATER : N := 62.

(** The regular expression of [parseEloItem]: from the start of the line a
    first group of one or more [.], an opening parenthesis, a second group
    of any number of [.], a closing parenthesis, the end of the line.  [.]
    matches every code unit but the four line terminators. *)
Definition isLineTerminator (c : N) : bool :=
  (c =? 10) || (c =? 13) || (c =? 8232) || (c =? 8233).

Definition dot (c : N) : bool := negb (isLineTerminator c).

(** The second group and what follows it, on the text after the opening
    parenthesis: the line must end in a closing parenthesis and the second
    group is all that comes before it. *)
Definition match_group2 (rest : jsstring) : option jsstring :=
  match rev rest with
  | c :: g2 =>
      if (c =? RPAREN) && forallb dot g2 then Some (rev g2) else None
  | [] => None
  end.

(** The first group by backtracking: the greedy repetition first tries to
    take one more code unit; when the rest of the pattern fails after that,
    it stops at the current one, which must then be an opening parenthesis,
    with at least one code unit already in the first group [g1]. *)
Fixpoint match_group1 (g1 s : jsstring) : option (jsstring * jsstring) :=
  match s with
  | [] => None
  | c :: s' =>
      let stop :=
        match g1 with
        | [] => None
        | _ :: _ =>
            if c =? LPAREN then
              match match_group2 s' with
              | Some g2 => Some (g1, g2)
              | None => None
              end
            else None
        end in
      if dot c then
        match match_group1 (g1 ++ [c]) s' with
        | Some groups => Some groups
        | None => stop
        end
      else stop
  end.

(** [s.match(...)] with that pattern, giving the two captured groups. *)
Definition relationsMatch (s : jsstring) : option (jsstring * jsstring) :=
  match_group1 [] s.

End Strings.

(** ** The parsers *)

Record EloItem : Type := mkItem {
  title : jsstring;
  estimatedElo : number;
  eloRelations : list EloRelation
}.

Definition with_estimatedElo (item : EloItem) (e : number) : EloItem :=
  mkItem (title item) e (eloRelations item).

Section Parsers.

(** The host's [parseFloat], which reads the longest numeric prefix of a
    string and answers [NaN] when there is none. *)
Variable parseFloat : jsstring -> number.

Definition parseEloRelation (s : jsstring) : EloRelation :=
  let s := trim s in
  let '(op0, s) :=
    match s with
    | c :: s' =>
        if N.eqb c LESS then (lt_op, s')
        else if N.eqb c GREATER then (gt_op, s')
        else (eq_op, s)
    | [] => (eq_op, s)
    end in
  let value := parseFloat s in
  let op1 := if isNaN value then nop_op else op0 in
  mkRel op1 value.

Definition parseEloItem (s : jsstring) : EloItem :=
  match relationsMatch s with
  | Some (g1, g2) =>
      let item :=
        mkItem (trim g1) DEFAULT_ELO
               (map parseEloRelation (split COMMA g2)) in
      with_estimatedElo item (estimateElo (eloRelations item))
  | None => mkItem (trim s) DEFAULT_ELO []
  end.

End Parsers.

(** ** The store

    [updateRating] mutates the item it is given and pushes onto its relation
    array, so items and arrays live in a store and are named by references.
    An item object holds a reference to its array: two objects may share
    one, as the shallow copies made by the click handlers do. *)

Definition ref : Type := nat.

Record ItemObject : Type := mkObj {
  o_title : jsstring;
  o_estimatedElo : number;
  o_eloRelations : ref
}.

Record store : Type := mkStore {
  objects : gmap ref ItemObject;
  arrays : gmap ref (list EloRelation)
}.

(** The item a reference stands for, as the code reads it field by field. *)
Definition load (σ : store) (item : ref) : option EloItem :=
  match objects σ !! item with
  | Some o =>
      match arrays σ !! o_eloRelations o with
      | Some rels => Some (mkItem (o_title o) (o_estimatedElo o) rels)
      | None => None
      end
  | None => None
  end.

(** Computations over the store; [None] is a dangling reference, which the
    host rules out. *)
Definition M (A : Type) : Type := store -> option (A * store).

#[global] Instance M_ret : MRet M := fun A a σ => Some (a, σ).

#[global] Instance M_bind : MBind M := fun A B k m σ =>
  match m σ with
  | Some (a, σ') => k a σ'
  | None => None
  end.

Definition get_estimatedElo (item : ref) : M number :=
  fun σ =>
    match objects σ !! item with
    | Some o => Some (o_estimatedElo o, σ)
    | None => None
    end.

Definition set_estimatedElo (item : ref) (e : number) : M unit :=
  fun σ =>
    match objects σ !! item with
    | Some o =>
        Some (tt, mkStore
                    (<[item := mkObj (o_title o) e (o_eloRelations o)]>
                       (objects σ))
                    (arrays σ))
    | None => None
    end.

Definition get_eloRelations (item : ref) : M ref :=
  fun σ =>
    match objects σ !! item with
    | Some o => Some (o_eloRelations o, σ)
    | None => None
    end.

Definition set_eloRelations (item : ref) (a : ref) : M unit :=
  fun σ =>
    match objects σ !! item with
    | Some o =>
        Some (tt, mkStore
                    (<[item := mkObj (o_title o) (o_estimatedElo o) a]>
                       (objects σ))
                    (arrays σ))
    | None => None
    end.

Definition array_read (a : ref) : M (list EloRelation) :=
  fun σ =>
    match arrays σ !! a with
    | Some rels => Some (rels, σ)
    | None => None
    end.

(** [a.push(r)] *)
Definition array_push (a : ref) (r : EloRelation) : M unit :=
  fun σ =>
    match arrays σ !! a with
    | Some rels =>
        Some (tt, mkStore (objects σ) (<[a := rels ++ [r]]> (arrays σ)))
    | None => None
    end.

(** An array literal: a new array at a reference not in use. *)
Definition array_new (rels : list EloRelation) : M ref :=
  fun σ =>
    let a := fresh (dom (arrays σ)) in
    Some (a, mkStore (objects σ) (<[a := rels]> (arrays σ))).

(** [estimateElo(item)] on an item of the store. *)
Definition estimateElo_item (item : ref) : M number :=
  a ← get_eloRelations item;
  rels ← array_read a;
  mret (estimateElo rels).

(** ** [updateRating] *)

Section Updater.

(** The host's [Math.pow]. *)
Variable Math_pow : number -> number -> number.

Local Open Scope js_scope.

Definition pA (a b : ref) : M number :=
  eb ← get_estimatedElo b;
  ea ← get_estimatedElo a;
  mret (1%Z / (1%Z + Math_pow 10%Z ((eb - ea) / 400%Z))).

(** The object [updateRating(item)] returns: its two methods close over
    [item] and over [isDefinite], which is computed once, when the object
    is made. *)
Record Updater : Type := mkUpdater {
  u_item : ref;
  isDefinite : bool
}.

Definition is_eq (o : EloRelationOp) : bool :=
  match o with
  | eq_op => true
  | _ => false
  end.

(** [eloRelations.length === 1 && eloRelations[0].op == "eq"] *)
Definition definite (eloRelations : list EloRelation) : bool :=
  (length eloRelations =? 1)%nat && is_eq (op (rel_at eloRelations 0)).

Definition updateRating (item : ref) : M Updater :=
  a ← get_eloRelations item;
  rels ← array_read a;
  mret (mkUpdater item (definite rels)).

(** The tail both methods share in their second branch: re-estimate, then
    collapse when the array has grown past the incubation time. *)
Definition settle_if_incubated (item : ref) : M unit :=
  e ← estimateElo_item item;
  set_estimatedElo item e;;
  a ← get_eloRelations item;
  rels ← array_read a;
  if (ITEM_INCUBATION_TIME <? length rels)%nat then
    e' ← get_estimatedElo item;
    a' ← array_new [mkRel eq_op e'];
    set_eloRelations item a'
  else mret tt.

Definition afterWinAgainst (u : Updater) (looserItem : ref) : M unit :=
  let item := u_item u in
  if isDefinite u then
    e ← get_estimatedElo item;
    p ← pA item looserItem;
    let itemNewElo := e + 32%Z * (1%Z - p) in
    set_estimatedElo item itemNewElo;;
    a ← array_new [mkRel eq_op itemNewElo];
    set_eloRelations item a
  else
    e ← get_estimatedElo looserItem;
    p ← pA looserItem item;
    let otherNewElo := e - 32%Z * p in
    a ← get_eloRelations item;
    array_push a (mkRel gt_op otherNewElo);;
    settle_if_incubated item.

Definition afterLossAgainst (u : Updater) (winnerItem : ref) : M unit :=
  let item := u_item u in
  if isDefinite u then
    e ← get_estimatedElo item;
    p ← pA item winnerItem;
    let itemNewElo := e - 32%Z * p in
    set_estimatedElo item itemNewElo;;
    a ← array_new [mkRel eq_op itemNewElo];
    set_eloRelations item a
  else
    e ← get_estimatedElo winnerItem;
    p ← pA winnerItem item;
    let otherNewElo := e + 32%Z * (1%Z - p) in
    a ← get_eloRelations item;
    array_push a (mkRel lt_op otherNewElo);;
    settle_if_incubated item.

(** One comparison outcome applied to [item], as the click handlers do it:
    [updateRating(item).afterWinAgainst(other)] or the loss. *)
Inductive outcome : Type := Win | Loss.

Definition after (o : outcome) (u : Updater) (other : ref) : M unit :=
  match o with
  | Win => afterWinAgainst u other
  | Loss => afterLossAgainst u other
  end.

Definition update (item : ref) (o : outcome) (other : ref) : M unit :=
  u ← updateRating item;
  after o u other.


End Updater.

(** ** Notions the properties are stated with *)

(** The candidates the search loop visits: [minElo], then one more each
    round, by the host's own addition. *)
Fixpoint candidate (minElo : number) (j : nat) : number :=
  match j with
  | O => minElo
  | S j' => (candidate minElo j' + 1%Z)%js
  end.

(** What the search loop holds after [j] rounds: a candidate of the window
    among the first [j], and its error, which none of the first [j]
    candidates is strictly below. *)
Definition best_of (rels : list EloRelation) (lo hi : Q) (j : nat)
    (bestError bestTestElo : number) : Prop :=
  (exists i, (i < j)%nat /\ bestTestElo = candidate (Num lo) i /\
             (candidate (Num lo) i <=? Num hi)%js = true) /\
  bestError = totalError rels bestTestElo /\
  forall i, (i < j)%nat ->
    (totalError rels (candidate (Num lo) i) <? bestError)%js = false.


(** A relation that is unparseable or holds a finite number: what the
    relation parser makes of every token whose number is not an infinity. *)
Definition parsed (r : EloRelation) : Prop :=
  op r = nop_op \/ finite (value r).

(** A relation whose value is a whole number. *)
Definition integral (r : EloRelation) : Prop :=
  exists z : Z, value r = of_Z z.

(** The search window in the words of the specification: seeded from the
    first relation's value; every later relation lowers [minBound] by its
    own value when it is [Equal] or [LessThan] and raises [maxBound] by its
    own value when it is [Equal] or [GreaterThan]; unparseable relations
    leave the bounds alone; then one more on each side. *)
Definition window_spec_step (acc : number * number) (r : EloRelation)
    : number * number :=
  let '(minBound, maxBound) := acc in
  match op r with
  | eq_op => (Math_min (value r) minBound, Math_max (value r) maxBound)
  | lt_op => (Math_min (value r) minBound, maxBound)
  | gt_op => (minBound, Math_max (value r) maxBound)
  | nop_op => (minBound, maxBound)
  end.

Definition window_spec (first : EloRelation) (rest : list EloRelation)
    : number * number :=
  let '(minBound, maxBound) :=
    fold_left window_spec_step rest (value first, value first) in
  ((minBound - 1%Z)%js, (maxBound + 1%Z)%js).

(** Dropping the unparseable relations of a list. *)
Definition is_nop (o : EloRelationOp) : bool :=
  match o with
  | nop_op => true
  | _ => false
  end.

Definition without_unparseable (rels : list EloRelation) : list EloRelation :=
  filter (fun r => is_nop (op r) = false) rels.

(** The cached estimate of an item is the estimate of its relations. *)
Definition consistent (item : EloItem) : Prop :=
  estimatedElo item ≈ estimateElo (eloRelations item).

(** The text of a line before the first and before the last occurrence of a
    code unit. *)
Fixpoint before_first (c : N) (s : jsstring) : jsstring :=
  match s with
  | [] => []
  | d :: s' => if N.eqb d c then [] else d :: before_first c s'
  end.

Fixpoint after_first (c : N) (s : jsstring) : jsstring :=
  match s with
  | [] => []
  | d :: s' => if N.eqb d c then s' else after_first c s'
  end.

Definition before_last (c : N) (s : jsstring) : jsstring :=
  rev (after_first c (rev s)).

(** No occurrence of a code unit in a text. *)
Definition free_of (c : N) (s : jsstring) : bool :=
  forallb (fun d => negb (N.eqb d c)) s.

(** The win probability of the specification, on two strengths. *)
Definition win_probability (Math_pow : number -> number -> number)
    (a b : number) : number :=
  (1%Z / (1%Z + Math_pow 10%Z ((b - a) / 400%Z)))%js.

(** The rating adjustment of a settled item with strength [own] against an
    opponent of strength [other]: [32 * (1 - P)] more on a win, [32 * P]
    less on a loss. *)
Definition new_strength (Math_pow : number -> number -> number)
    (o : outcome) (own other : number) : number :=
  match o with
  | Win => (own + 32%Z * (1%Z - win_probability Math_pow own other))%js
  | Loss => (own - 32%Z * win_probability Math_pow own other)%js
  end.

(** The bound an incubating item records: above the opponent's lowered
    strength on a win, below its raised strength on a loss. *)
Definition new_relation (Math_pow : number -> number -> number)
    (o : outcome) (own other : number) : EloRelation :=
  match o with
  | Win =>
      mkRel gt_op (other - 32%Z * win_probability Math_pow other own)%js
  | Loss =>
      mkRel lt_op
        (other + 32%Z * (1%Z - win_probability Math_pow other own))%js
  end.

(** The store after [item] has been given the strength [e] and a new
    one-element array holding it. *)
Definition settled_store (σ : store) (item : ref) (e : number) : option store :=
  match objects σ !! item with
  | Some o =>
      let a := fresh (dom (arrays σ)) in
      Some (mkStore (<[item := mkObj (o_title o) e a]> (objects σ))
                    (<[a := [mkRel eq_op e]]> (arrays σ)))
  | None => None
  end.

(** The store after [r] has been pushed onto the array of [item] and the
    item re-estimated, and settled when the array outgrew the incubation
    time. *)
Definition incubated_store (σ : store) (item : ref) (r : EloRelation)
    : option store :=
  match objects σ !! item with
  | Some o =>
      match arrays σ !! o_eloRelations o with
      | Some rels =>
          let rels' := rels ++ [r] in
          let e := estimateElo rels' in
          let pushed :=
            mkStore (<[item := mkObj (o_title o) e (o_eloRelations o)]>
                       (objects σ))
                    (<[o_eloRelations o := rels']> (arrays σ)) in
          if (ITEM_INCUBATION_TIME <? length rels')%nat
          then settled_store pushed item e
          else Some pushed
      | None => None
      end
  | None => None
  end.

(** The relations of an incubating item after one more has been pushed. *)
Definition pushed_relations (rels : list EloRelation) (r : EloRelation)
    : list EloRelation :=
  if (ITEM_INCUBATION_TIME <? length (rels ++ [r]))%nat
  then [mkRel eq_op (estimateElo (rels ++ [r]))]
  else rels ++ [r].

(** *** Host functions to run the code on examples *)

(** A rational stand-in for [Math.pow(10, y)], exact at whole exponents and
    linear in between; it is positive everywhere. *)
Definition pow10_interp (b y : number) : number :=
  match y with
  | Num q =>
      let n := Qfloor q in
      Num (Qred (Qpower 10 n * (1 + 9 * (q - inject_Z n))))
  | NaN => NaN
  end.

(** [parseFloat] on plain decimal literals: leading white space, a sign,
    digits, a fraction.  Exponents and [Infinity] are not read. *)
Definition digit (c : N) : option Z :=
  if (N.leb 48 c && N.leb c 57)%bool then Some (Z.of_N (c - 48)) else None.

Fixpoint read_digits (s : jsstring) (acc : Z) (count : nat)
    : Z * nat * jsstring :=
  match s with
  | c :: s' =>
      match digit c with
      | Some d => read_digits s' (10 * acc + d)%Z (S count)
      | None => (acc, count, s)
      end
  | [] => (acc, count, s)
  end.

Definition parseFloat_decimal (s : jsstring) : number :=
  let s := trimStart s in
  let '(negative, s) :=
    match s with
    | 45%N :: s' => (true, s')
    | 43%N :: s' => (false, s')
    | _ => (false, s)
    end in
  let '(whole, n_whole, rest) := read_digits s 0%Z 0%nat in
  let '(frac, n_frac) :=
    match rest with
    | 46%N :: rest' =>
        let '(f, n, _) := read_digits rest' 0%Z 0%nat in (f, n)
    | _ => (0%Z, 0%nat)
    end in
  if (n_whole + n_frac =? 0)%nat then NaN
  else
    let q := (inject_Z whole + inject_Z frac / inject_Z (10 ^ Z.of_nat n_frac))%Q in
    Num (Qred (if negative then - q else q)).

(** Two items, Alice settled at 650 and Bob new, each with its own array. *)
Definition two_items : store :=
  mkStore {[ 0%nat := mkObj (js "Alice") (of_Z 650) 0%nat;
             1%nat := mkObj (js "Bob") (of_Z 600) 1%nat ]}
          {[ 0%nat := [mkRel eq_op (of_Z 650)]; 1%nat := [] ]}.

(** ** The list parser and the serializer *)

(** [Array.prototype.sort(comparefn)]: the stable sort.  An element moves
    behind another only when [comparefn] of the two is positive; a [NaN]
    from [comparefn] counts as zero.  The order is the host's for every
    consistent [comparefn], which is the case when all estimates are
    numbers. *)
Fixpoint sort_insert {A : Type} (comparefn : A -> A -> number) (x : A)
    (sorted : list A) : list A :=
  match sorted with
  | [] => [x]
  | y :: sorted' =>
      if (of_Z 0 <? comparefn x y)%js then y :: sort_insert comparefn x sorted'
      else x :: sorted
  end.

Definition Array_sort {A : Type} (comparefn : A -> A -> number)
    (l : list A) : list A :=
  fold_right (sort_insert comparefn) [] l.

(** [(a, b) => b.estimatedElo - a.estimatedElo] *)
Definition byEloDescending (a b : EloItem) : number :=
  (estimatedElo b - estimatedElo a)%js.

Definition LF : N := 10%N.
Definition SPACE : N := 32%N.

(** [!!item] on a string: it is not empty. *)
Definition truthy (s : jsstring) : bool :=
  match s with
  | [] => false
  | _ :: _ => true
  end.

Definition parseEloItems (parseFloat : jsstring -> number) (s : jsstring)
    : list EloItem :=
  Array_sort byEloDescending
    (map (parseEloItem parseFloat)
       (filter (fun item => truthy item = true) (map trim (split LF s)))).

(** [Math.floor] *)
Definition Math_floor (a : number) : number :=
  match a with
  | Num q => Num (inject_Z (Qfloor q))
  | NaN => NaN
  end.

(** [Array.prototype.join] *)
Fixpoint join (sep : jsstring) (l : list jsstring) : jsstring :=
  match l with
  | [] => []
  | s :: l' =>
      match l' with
      | [] => s
      | _ :: _ => s ++ sep ++ join sep l'
      end
  end.

Definition relToStr (o : EloRelationOp) : jsstring :=
  match o with
  | lt_op => [LESS]
  | gt_op => [GREATER]
  | eq_op => []
  | nop_op => []
  end.

Section Serializer.

(** The host's conversion of a number to text, as a template literal does
    it. *)
Variable Number_toString : number -> jsstring.

(** [Math.floor(rel.value * 100) / 100] *)
Definition two_decimals (v : number) : number :=
  (Math_floor (v * 100%Z) / 100%Z)%js.

Definition stringifyEloRelation (rel : EloRelation) : jsstring :=
  relToStr (op rel) ++ Number_toString (two_decimals (value rel)).

Definition stringifyEloRelations (item : EloItem) : jsstring :=
  join (js ", ")
    (map stringifyEloRelation
       (filter (fun rel => is_nop (op rel) = false) (eloRelations item))).

Definition stringifyEloItem (item : EloItem) : jsstring :=
  if (0 <? length (eloRelations item))%nat
  then title item ++ js " (" ++ stringifyEloRelations item ++ js ")"
  else title item.

Definition stringifyEloItems (items : list EloItem) : jsstring :=
  join [LF] (map stringifyEloItem items).

End Serializer.

(** ** One comparison in the click handlers *)

(** [{ ...item }]: a new object with the fields of [item]; the copy holds
    the same array reference. *)
Definition object_copy (item : ref) : M ref :=
  fun σ =>
    match objects σ !! item with
    | Some o =>
        let l := fresh (dom (objects σ)) in
        Some (l, mkStore (<[l := o]> (objects σ)) (arrays σ))
    | None => None
    end.

Definition opposite (o : outcome) : outcome :=
  match o with
  | Win => Loss
  | Loss => Win
  end.

(** What both handlers do with the two chosen items before they store the
    copies back and sort: [o] is the outcome for the left item. *)
Definition choose (Math_pow : number -> number -> number) (o : outcome)
    (leftItem rightItem : ref) : M (ref * ref) :=
  leftItemAfterChoosing ← object_copy leftItem;
  rightItemAfterChoosing ← object_copy rightItem;
  update Math_pow leftItemAfterChoosing o rightItem;;
  update Math_pow rightItemAfterChoosing (opposite o) leftItem;;
  mret (leftItemAfterChoosing, rightItemAfterChoosing).

(** The item an update leaves, from the item before it and the strength of
    the opponent. *)
Definition updated (Math_pow : number -> number -> number) (o : outcome)
    (it : EloItem) (other : number) : EloItem :=
  if definite (eloRelations it)
  then
    let e := new_strength Math_pow o (estimatedElo it) other in
    mkItem (title it) e [mkRel eq_op e]
  else
    let r := new_relation Math_pow o (estimatedElo it) other in
    mkItem (title it) (estimateElo (eloRelations it ++ [r]))
           (pushed_relations (eloRelations it) r).

(** A text as the host prints numbers: not empty and free of white space,
    commas, opening parentheses and comparison signs. *)
Definition number_text (s : jsstring) : bool :=
  truthy s &&
  forallb (fun c => negb (isWhiteSpace c) && negb (N.eqb c COMMA)
                    && negb (N.eqb c LPAREN) && negb (N.eqb c LESS)
                    && negb (N.eqb c GREATER)) s.

(** A printer for numbers with at most two decimals, to run the serializer
    on examples. *)
Definition digits_of (n : N) : jsstring :=
  js (NilZero.string_of_uint (N.to_uint n)).

Definition toString_decimal (v : number) : jsstring :=
  match v with
  | NaN => js "NaN"
  | Num q =>
      let z := Qfloor (q * 100) in
      let n := Z.abs_N z in
      let whole := digits_of (n / 100) in
      let cents := (n mod 100)%N in
      let frac :=
        if (cents =? 0)%N then []
        else if (cents mod 10 =? 0)%N then 46%N :: digits_of (cents / 10)
        else 46%N :: digits_of (cents / 10) ++ digits_of (cents mod 10) in
      (if (z <? 0)%Z then [45%N] else []) ++ whole ++ frac
  end.

(** ** The host's numbers as they are: binary64

    The exact numbers used so far cannot show what the host's rounding does
    to a value.  Where a property hangs on that, the estimator and the two
    methods of the updater are read a second time, over Rocq's binary64
    numbers, whose operations are the host's.  An item is taken by value
    here: sharing plays no part in the numbers.  The search loop gets its
    fuel from outside and answers [None] when it runs out, because over
    binary64 numbers [testElo += 1] need not move and the loop need not
    end. *)

Module B64.

Local Open Scope float_scope.

Definition number : Set := float.

Record EloRelation : Type := mkRel {
  op : EloRelationOp;
  value : number
}.

Record EloItem : Type := mkItem {
  title : jsstring;
  estimatedElo : number;
  eloRelations : list EloRelation
}.

Definition DEFAULT_ELO : number := 600.

Definition isNaN (a : number) : bool := negb (a =? a).

(** [Math.min] and [Math.max]: [NaN] when an argument is, and the negative
    zero below the positive one. *)
Definition Math_min (a b : number) : number :=
  if isNaN a || isNaN b then PrimFloat.nan
  else if a <? b then a
  else if b <? a then b
  else if PrimFloat.Leibniz.eqb a PrimFloat.neg_zero then a else b.

Definition Math_max (a b : number) : number :=
  if isNaN a || isNaN b then PrimFloat.nan
  else if a <? b then b
  else if b <? a then a
  else if PrimFloat.Leibniz.eqb a PrimFloat.neg_zero then b else a.

Definition Math_abs (a : number) : number := PrimFloat.abs a.

Definition rel_at (eloRelations : list EloRelation) (i : nat) : EloRelation :=
  nth i eloRelations (mkRel nop_op PrimFloat.nan).

Definition bounds_step (eloRelations : list EloRelation)
    (acc : number * number) (i : nat) : number * number :=
  let '(minElo, maxElo) := acc in
  match op (rel_at eloRelations i) with
  | eq_op =>
      (Math_min (value (rel_at eloRelations 1)) minElo,
       Math_max (value (rel_at eloRelations 1)) maxElo)
  | lt_op => (Math_min (value (rel_at eloRelations 1)) minElo, maxElo)
  | gt_op => (minElo, Math_max (value (rel_at eloRelations 1)) maxElo)
  | nop_op => (minElo, maxElo)
  end.

Definition bounds (eloRelations : list EloRelation) : number * number :=
  let seed := value (rel_at eloRelations 0) in
  let '(minElo, maxElo) :=
    fold_left (bounds_step eloRelations)
              (seq 1 (length eloRelations - 1)) (seed, seed) in
  (minElo - 1, maxElo + 1).

Definition relError (r : EloRelation) (testElo : number) : number :=
  match op r with
  | eq_op => Math_abs (value r - testElo)
  | lt_op => Math_max 0 (testElo - value r + 1)
  | gt_op => Math_max 0 (value r - testElo + 1)
  | nop_op => 0
  end.

Definition totalError (eloRelations : list EloRelation) (testElo : number)
    : number :=
  fold_left (fun error r => error + relError r testElo * relError r testElo)
            eloRelations 0.

Fixpoint search (fuel : nat) (eloRelations : list EloRelation)
    (minElo maxElo testElo bestError bestTestElo : number) : option number :=
  if testElo <=? maxElo then
    match fuel with
    | O => None
    | S fuel' =>
        let error := totalError eloRelations testElo in
        if (testElo =? minElo) || (error <? bestError) then
          search fuel' eloRelations minElo maxElo (testElo + 1) error testElo
        else
          search fuel' eloRelations minElo maxElo (testElo + 1)
                 bestError bestTestElo
    end
  else Some bestTestElo.

Definition estimateElo (fuel : nat) (eloRelations : list EloRelation)
    : option number :=
  match eloRelations with
  | _ :: _ =>
      let '(minElo, maxElo) := bounds eloRelations in
      search fuel eloRelations minElo maxElo minElo 0 0
  | [] => Some DEFAULT_ELO
  end.

Section Updater.

Variable Math_pow : number -> number -> number.
Variable fuel : nat.

Definition pA (a b : EloItem) : number :=
  1 / (1 + Math_pow 10 ((estimatedElo b - estimatedElo a) / 400)).

Definition definite (eloRelations : list EloRelation) : bool :=
  (length eloRelations =? 1)%nat && is_eq (op (rel_at eloRelations 0)).

(** The second branch of both methods once the new relation is pushed. *)
Definition settle_if_incubated (item : EloItem) : option EloItem :=
  match estimateElo fuel (eloRelations item) with
  | Some e =>
      Some (mkItem (title item) e
              (if (ITEM_INCUBATION_TIME <? length (eloRelations item))%nat
               then [mkRel eq_op e]
               else eloRelations item))
  | None => None
  end.

Definition afterWinAgainst (isDefinite : bool) (item looserItem : EloItem)
    : option EloItem :=
  if isDefinite then
    let itemNewElo := estimatedElo item + 32 * (1 - pA item looserItem) in
    Some (mkItem (title item) itemNewElo [mkRel eq_op itemNewElo])
  else
    let otherNewElo := estimatedElo looserItem - 32 * pA looserItem item in
    settle_if_incubated
      (mkItem (title item) (estimatedElo item)
         (eloRelations item ++ [mkRel gt_op otherNewElo])).

Definition afterLossAgainst (isDefinite : bool) (item winnerItem : EloItem)
    : option EloItem :=
  if isDefinite then
    let itemNewElo := estimatedElo item - 32 * pA item winnerItem in
    Some (mkItem (title item) itemNewElo [mkRel eq_op itemNewElo])
  else
    let otherNewElo :=
      estimatedElo winnerItem + 32 * (1 - pA winnerItem item) in
    settle_if_incubated
      (mkItem (title item) (estimatedElo item)
         (eloRelations item ++ [mkRel lt_op otherNewElo])).

(** [updateRating(item).afterWinAgainst(other)] or the loss. *)
Definition update (o : outcome) (item other : EloItem) : option EloItem :=
  let isDefinite := definite (eloRelations item) in
  match o with
  | Win => afterWinAgainst isDefinite item other
  | Loss => afterLossAgainst isDefinite item other
  end.

End Updater.

(** The claim on the cached estimate, for one item: whenever the estimator
    returns on the item's relations, it returns the stored estimate. *)
Definition consistent (item : EloItem) : Prop :=
  forall fuel e, estimateElo fuel (eloRelations item) = Some e ->
    (e =? estimatedElo item) = true.

End B64.

(** * Properties *)

(** ** Numbers *)

Lemma leb_true_inv (a b : number) :
  (a <=? b)%js = true -> exists x y, a = Num x /\ b = Num y /\ (x <= y)%Q.
Proof.
  destruct a as [|x], b as [|y]; simpl; try discriminate.
  intros H. exists x, y. rewrite Qle_bool_iff in H. auto.
Qed.

Lemma leb_false_inv (x y : Q) :
  (Num x <=? Num y)%js = false -> (y < x)%Q.
Proof.
  simpl. intros H. destruct (Qlt_le_dec y x) as [Hlt|Hle]; [exact Hlt|].
  apply Qle_bool_iff in Hle. congruence.
Qed.

Lemma same_refl (a : number) : a ≈ a.
Proof. destruct a; simpl; [exact I | reflexivity]. Qed.

Lemma Qfloor_unique (x : Q) (z : Z) :
  (inject_Z z <= x)%Q -> (x < inject_Z z + 1)%Q -> Qfloor x = z.
Proof.
  intros Hlo Hhi.
  assert (H1 : (z <= Qfloor x)%Z).
  { rewrite <- (Qfloor_Z z). apply Qfloor_resp_le. exact Hlo. }
  assert (H2 : (Qfloor x < z + 1)%Z).
  { rewrite Zlt_Qlt, inject_Z_plus. pose proof (Qfloor_le x).
    change (inject_Z 1) with 1%Q. lra. }
  lia.
Qed.

Lemma Qfloor_pred (x : Q) : Qfloor (x - 1) = (Qfloor x - 1)%Z.
Proof.
  apply Qfloor_unique.
  - pose proof (Qfloor_le x). unfold Z.sub.
    rewrite inject_Z_plus, inject_Z_opp. change (inject_Z 1) with 1%Q. lra.
  - pose proof (Qlt_floor x) as H. rewrite inject_Z_plus in H.
    unfold Z.sub. rewrite inject_Z_plus, inject_Z_opp.
    change (inject_Z 1) with 1%Q in *. lra.
Qed.

(** ** The search loop ends, on a finite value *)

Lemma search_finite fuel rels lo hi t be bt :
  finite bt -> finite (search fuel rels lo hi t be bt).
Proof.
  revert t be bt.
  induction fuel as [|fuel IH]; intros t be bt Hbt; simpl.
  - destruct (t <=? hi)%js; exact Hbt.
  - destruct (t <=? hi)%js eqn:Hguard; [|exact Hbt].
    apply leb_true_inv in Hguard as (x & y & -> & _ & _).
    destruct (_ || _); apply IH; [exact I | exact Hbt].
Qed.

Lemma estimateElo_finite (rels : list EloRelation) : finite (estimateElo rels).
Proof.
  destruct rels as [|r rels]; [exact I|].
  unfold estimateElo. destruct (bounds (r :: rels)) as [lo hi].
  apply search_finite. exact I.
Qed.

(** With [fuel] rounds left and no more than [fuel] candidates ahead, the
    loop guard is false by the time the fuel is used up: extra fuel changes
    nothing. *)
Lemma search_fuel_enough fuel k rels lo hi t be bt :
  (Qfloor (hi - t) + 1 <= Z.of_nat fuel)%Z ->
  search (fuel + k) rels lo (Num hi) (Num t) be bt
  = search fuel rels lo (Num hi) (Num t) be bt.
Proof.
  revert t be bt.
  induction fuel as [|fuel IH]; intros t be bt Hfuel.
  - assert (Hlt : (hi < t)%Q).
    { pose proof (Qlt_floor (hi - t)) as H.
      assert (Hz : (inject_Z (Qfloor (hi - t) + 1) <= inject_Z 0)%Q)
        by (rewrite <- Zle_Qle; exact Hfuel).
      rewrite inject_Z_plus in Hz, H.
      change (inject_Z 1) with 1%Q in *. change (inject_Z 0) with 0%Q in *.
      lra. }
    assert (Hguard : (Num t <=? Num hi)%js = false).
    { simpl. destruct (Qle_bool t hi) eqn:E; [|reflexivity].
      apply Qle_bool_iff in E. lra. }
    destruct k; simpl search; simpl in Hguard; rewrite Hguard; reflexivity.
  - change (S fuel + k)%nat with (S (fuel + k)). simpl search.
    destruct (Qle_bool t hi); [|reflexivity].
    assert (Hnext : (Qfloor (hi - (t + inject_Z 1)) + 1 <= Z.of_nat fuel)%Z).
    { assert (E : (hi - (t + inject_Z 1) == hi - t - 1)%Q)
        by (change (inject_Z 1) with 1%Q; lra).
      rewrite E, Qfloor_pred. lia. }
    destruct (_ || _); apply IH; exact Hnext.
Qed.

(** [estimateElo] runs its loop to the end: [rounds] is enough fuel. *)
Lemma estimateElo_fuel_enough (r : EloRelation) (rels : list EloRelation) k :
  let '(minElo, maxElo) := bounds (r :: rels) in
  search (rounds minElo maxElo + k) (r :: rels) minElo maxElo minElo
         (of_Z 0) (of_Z 0)
  = estimateElo (r :: rels).
Proof.
  unfold estimateElo. destruct (bounds (r :: rels)) as [lo hi].
  destruct lo as [|lo], hi as [|hi].
  - destruct k; reflexivity.
  - destruct k; reflexivity.
  - destruct k; reflexivity.
  - apply search_fuel_enough. unfold rounds. lia.
Qed.

(** ** Unfolding the search loop one round at a time *)

Lemma search_stop fuel rels lo hi t be bt :
  (t <=? hi)%js = false -> search fuel rels lo hi t be bt = bt.
Proof. intros H. destruct fuel; simpl; rewrite H; reflexivity. Qed.

Lemma search_take fuel rels lo hi t be bt :
  (t <=? hi)%js = true ->
  (t ==? lo)%js || (totalError rels t <? be)%js = true ->
  search (S fuel) rels lo hi t be bt
  = search fuel rels lo hi (t + 1%Z)%js (totalError rels t) t.
Proof. intros H1 H2. simpl. rewrite H1, H2. reflexivity. Qed.

Lemma search_keep fuel rels lo hi t be bt :
  (t <=? hi)%js = true ->
  (t ==? lo)%js || (totalError rels t <? be)%js = false ->
  search (S fuel) rels lo hi t be bt
  = search fuel rels lo hi (t + 1%Z)%js be bt.
Proof. intros H1 H2. simpl. rewrite H1, H2. reflexivity. Qed.

Lemma Qle_bool_false (x y : Q) : (y < x)%Q -> Qle_bool x y = false.
Proof.
  intros H. destruct (Qle_bool x y) eqn:E; [|reflexivity].
  apply Qle_bool_iff in E. lra.
Qed.

Lemma Qeq_bool_false (x y : Q) : ~ (x == y)%Q -> Qeq_bool x y = false.
Proof.
  intros H. destruct (Qeq_bool x y) eqn:E; [|reflexivity].
  apply Qeq_bool_iff in E. contradiction.
Qed.

(** ** One equality relation

    The window around a single value [e] holds the three candidates
    [e - 1], [e - 1 + 1] and [e - 1 + 1 + 1]; the second has error [0] and
    is returned.  Nothing is rounded on the way. *)
Lemma estimateElo_single_eq (e : Q) :
  estimateElo [mkRel eq_op (Num e)] ≈ Num e.
Proof.
  unfold estimateElo, bounds.
  cbn [length Nat.sub seq fold_left rel_at nth value].
  cbn [sub add lift2 of_Z]. unfold rounds.
  change (inject_Z 1) with 1%Q.
  assert (E : (e + 1 - (e - 1) == inject_Z 2)%Q)
    by (change (inject_Z 2) with 2%Q; lra).
  rewrite E, Qfloor_Z. change (Z.to_nat (2 + 1)) with 3%nat.
  assert (A1 : (Qabs (e - (e - 1)) == 1)%Q)
    by (rewrite Qabs_pos by lra; lra).
  assert (A2 : (Qabs (e - (e - 1 + 1)) == 0)%Q)
    by (rewrite Qabs_pos by lra; lra).
  assert (A3 : (Qabs (e - (e - 1 + 1 + 1)) == 1)%Q)
    by (rewrite Qabs_neg by lra; lra).
  rewrite search_take; cycle 1.
  { simpl. apply Qle_bool_iff. lra. }
  { simpl. rewrite Qeq_bool_refl. reflexivity. }
  cbn [totalError fold_left relError op value sub add mul lift2 of_Z Math_abs].
  change (inject_Z 1) with 1%Q. change (inject_Z 0) with 0%Q.
  rewrite search_take; cycle 1.
  { simpl. apply Qle_bool_iff. lra. }
  { cbn [totalError fold_left relError op value sub add mul lift2 of_Z
           Math_abs eqb ltb].
    change (inject_Z 0) with 0%Q.
    rewrite A1, A2. apply orb_true_r. }
  cbn [totalError fold_left relError op value sub add mul lift2 of_Z Math_abs].
  change (inject_Z 1) with 1%Q. change (inject_Z 0) with 0%Q.
  rewrite search_keep; cycle 1.
  { simpl. apply Qle_bool_iff. lra. }
  { cbn [totalError fold_left relError op value sub add mul lift2 of_Z
           Math_abs eqb ltb].
    change (inject_Z 0) with 0%Q.
    rewrite A2, A3. rewrite Qeq_bool_false by lra. reflexivity. }
  cbn [sub add mul lift2 of_Z]. change (inject_Z 1) with 1%Q.
  rewrite search_stop.
  - simpl. lra.
  - simpl. apply Qle_bool_false. lra.
Qed.

(** The same for whatever finite value a relation holds. *)
Lemma estimateElo_single_eq_finite (v : number) :
  finite v -> estimateElo [mkRel eq_op v] ≈ v.
Proof. destruct v as [|e]; [intros []|intros _]. apply estimateElo_single_eq. Qed.

(** ** The search loop returns a best candidate of its window *)

Lemma search_0 rels lo hi t be bt : search 0 rels lo hi t be bt = bt.
Proof. simpl. destruct (t <=? hi)%js; reflexivity. Qed.

Section Optimal.

Variable rels : list EloRelation.
Variables lo hi : Q.

Local Abbreviation E := (totalError rels).
Local Abbreviation cand := (candidate (Num lo)).

Lemma candidate_value j :
  exists q, cand j = Num q /\ (q == lo + inject_Z (Z.of_nat j))%Q.
Proof.
  induction j as [|j (q & Hq & Hv)].
  - exists lo. split; [reflexivity|]. change (inject_Z (Z.of_nat 0)) with 0%Q. lra.
  - exists (q + inject_Z 1)%Q. split.
    + simpl. rewrite Hq. reflexivity.
    + rewrite Nat2Z.inj_succ. unfold Z.succ. rewrite inject_Z_plus, Hv. lra.
Qed.

Lemma candidate_is_min j : (cand j ==? Num lo)%js = (j =? 0)%nat.
Proof.
  destruct (candidate_value j) as (q & Hq & Hv). rewrite Hq. simpl.
  destruct j as [|j]; simpl.
  - apply Qeq_bool_iff. rewrite Hv. change (inject_Z (Z.of_nat 0)) with 0%Q. lra.
  - apply Qeq_bool_false. rewrite Hv.
    assert (H : (inject_Z 0 < inject_Z (Z.of_nat (S j)))%Q)
      by (rewrite <- Zlt_Qlt; lia).
    change (inject_Z 0) with 0%Q in H. lra.
Qed.

Lemma candidate_in_window_mono i j :
  (i <= j)%nat -> (cand j <=? Num hi)%js = true -> (cand i <=? Num hi)%js = true.
Proof.
  intros Hij.
  destruct (candidate_value i) as (qi & -> & Hi).
  destruct (candidate_value j) as (qj & -> & Hj).
  simpl. rewrite !Qle_bool_iff, Hi, Hj. intros H.
  assert (Hz : (inject_Z (Z.of_nat i) <= inject_Z (Z.of_nat j))%Q)
    by (rewrite <- Zle_Qle; lia).
  lra.
Qed.

Lemma candidate_past_window j :
  (Qfloor (hi - lo) + 1 <= Z.of_nat j)%Z -> (cand j <=? Num hi)%js = false.
Proof.
  intros Hj. destruct (candidate_value j) as (q & -> & Hv).
  simpl. apply Qle_bool_false. rewrite Hv.
  pose proof (Qlt_floor (hi - lo)) as Hfl.
  assert (Hz : (inject_Z (Qfloor (hi - lo) + 1) <= inject_Z (Z.of_nat j))%Q)
    by (rewrite <- Zle_Qle; exact Hj).
  lra.
Qed.

Lemma ltb_irrefl a : (a <? a)%js = false.
Proof.
  destruct a as [|x]; [reflexivity|]. simpl.
  rewrite (proj2 (Qle_bool_iff x x)) by lra. reflexivity.
Qed.

Lemma ltb_trans_false a b c :
  (a <? c)%js = false -> (b <? c)%js = true -> (a <? b)%js = false.
Proof.
  destruct a as [|x], b as [|y], c as [|z]; simpl; try congruence.
  rewrite !negb_false_iff, negb_true_iff, !Qle_bool_iff.
  intros H1 H2. destruct (Qle_bool z y) eqn:H3; [discriminate|].
  apply leb_false_inv in H3. lra.
Qed.

Lemma best_of_round j be bt :
  (0 < j -> best_of rels lo hi j be bt)%nat ->
  (cand j <=? Num hi)%js = true ->
  let error := E (cand j) in
  if (cand j ==? Num lo)%js || (error <? be)%js
  then best_of rels lo hi (S j) error (cand j)
  else best_of rels lo hi (S j) be bt.
Proof.
  intros Hinv Hguard error. rewrite candidate_is_min.
  destruct j as [|j]; simpl.
  - repeat split.
    + exists 0%nat. split; [lia|]. split; [reflexivity|exact Hguard].
    + intros i Hi. replace i with 0%nat by lia. apply ltb_irrefl.
  - destruct Hinv as ((i0 & Hi0 & Hbt & Hin) & Hbe & Hmin); [lia|].
    destruct (error <? be)%js eqn:Hlt.
    + repeat split.
      * exists (S j). split; [lia|]. split; [reflexivity|exact Hguard].
      * intros i Hi. destruct (Nat.eq_dec i (S j)) as [->|Hne].
        -- apply ltb_irrefl.
        -- apply ltb_trans_false with be; [apply Hmin; lia|exact Hlt].
    + repeat split.
      * exists i0. split; [lia|]. split; [exact Hbt|exact Hin].
      * exact Hbe.
      * intros i Hi. destruct (Nat.eq_dec i (S j)) as [->|Hne].
        -- exact Hlt.
        -- apply Hmin. lia.
Qed.

(** The loop started in round [j] stops in some round [n], with the best of
    the first [n] candidates; it stops because candidate [n] is past the
    window, unless the fuel ran out first. *)
Lemma search_best fuel j be bt :
  (0 < j -> best_of rels lo hi j be bt)%nat ->
  (0 < j + fuel)%nat ->
  (j = 0%nat -> (cand 0 <=? Num hi)%js = true) ->
  let r := search fuel rels (Num lo) (Num hi) (cand j) be bt in
  exists n, (j <= n)%nat /\ best_of rels lo hi n (E r) r /\
    ((n < j + fuel)%nat -> (cand n <=? Num hi)%js = false).
Proof.
  revert j be bt. induction fuel as [|fuel IH]; intros j be bt Hinv Hpos H0 r.
  - assert (Hj : (0 < j)%nat) by lia.
    exists j. subst r. rewrite Nat.add_0_r.
    rewrite search_0. destruct (Hinv Hj) as (Hex & Hbe & Hmin).
    split; [lia|]. split; [|lia].
    subst be. split; [exact Hex|]. split; [reflexivity|exact Hmin].
  - destruct (cand j <=? Num hi)%js eqn:Hguard.
    + pose proof (best_of_round j be bt Hinv Hguard) as Hround.
      simpl in Hround.
      subst r.
      destruct ((cand j ==? Num lo)%js || (E (cand j) <? be)%js) eqn:Htake.
      * rewrite search_take by assumption.
        destruct (IH (S j) (E (cand j)) (cand j)) as (n & Hn & Hb & Hstop);
          [intros _; exact Hround | lia | lia |].
        exists n. split; [lia|]. split; [exact Hb|].
        intros Hlt. apply Hstop. lia.
      * rewrite search_keep by assumption.
        destruct (IH (S j) be bt) as (n & Hn & Hb & Hstop);
          [intros _; exact Hround | lia | lia |].
        exists n. split; [lia|]. split; [exact Hb|].
        intros Hlt. apply Hstop. lia.
    + assert (Hj : (0 < j)%nat).
      { destruct j; [|lia]. rewrite H0 in Hguard by reflexivity. discriminate. }
      exists j. subst r. rewrite search_stop by exact Hguard.
      destruct (Hinv Hj) as (Hex & Hbe & Hmin).
      split; [lia|]. split; [|intros _; exact Hguard].
      subst be. split; [exact Hex|]. split; [reflexivity|exact Hmin].
Qed.

(** Run from the first candidate with the fuel [estimateElo] gives it, the
    loop returns a candidate of the window that no candidate of the window
    beats. *)
Lemma search_optimal :
  (lo <= hi)%Q ->
  let r := search (rounds (Num lo) (Num hi)) rels (Num lo) (Num hi) (Num lo)
                  (of_Z 0) (of_Z 0) in
  (exists i, r = cand i /\ (r <=? Num hi)%js = true) /\
  forall j, (cand j <=? Num hi)%js = true -> (E (cand j) <? E r)%js = false.
Proof.
  intros Hle r.
  assert (Hfl : (0 <= Qfloor (hi - lo))%Z).
  { change 0%Z with (Qfloor (inject_Z 0)). apply Qfloor_resp_le.
    change (inject_Z 0) with 0%Q. lra. }
  pose proof (search_best (rounds (Num lo) (Num hi)) 0 (of_Z 0) (of_Z 0))
    as Hbest.
  cbv zeta in Hbest. change (cand 0) with (Num lo) in Hbest. fold r in Hbest.
  destruct Hbest as (n & _ & ((i & Hi & Hr & Hin) & _ & Hmin) & Hstop).
  - lia.
  - unfold rounds. lia.
  - intros _. simpl. apply Qle_bool_iff. exact Hle.
  - split.
    + exists i. split; [exact Hr|]. rewrite Hr. exact Hin.
    + intros j Hj. apply Hmin.
      destruct (Nat.lt_ge_cases j n) as [Hlt|Hge]; [exact Hlt|exfalso].
      pose proof (candidate_in_window_mono n j Hge Hj) as Hn.
      destruct (Nat.lt_ge_cases n (0 + rounds (Num lo) (Num hi))) as [H1|H1].
      * rewrite (Hstop H1) in Hn. discriminate.
      * rewrite candidate_past_window in Hn; [discriminate|].
        unfold rounds in H1. lia.
Qed.

End Optimal.

(** ** The window *)

Lemma Math_min_finite v m a' :
  Math_min v m = Num a' -> exists a, m = Num a /\ (a' <= a)%Q.
Proof.
  destruct v as [|x], m as [|a]; simpl; try discriminate.
  intros [= <-]. exists a. split; [reflexivity|].
  destruct (Qle_bool x a) eqn:E; [apply Qle_bool_iff in E; exact E|lra].
Qed.

Lemma Math_max_finite v m b' :
  Math_max v m = Num b' -> exists b, m = Num b /\ (b <= b')%Q.
Proof.
  destruct v as [|x], m as [|b]; simpl; try discriminate.
  intros [= <-]. exists b. split; [reflexivity|].
  destruct (Qle_bool x b) eqn:E; [lra|].
  apply leb_false_inv in E. lra.
Qed.

Lemma bounds_step_ordered rels acc i lo' hi' :
  (forall lo hi, acc = (Num lo, Num hi) -> (lo <= hi)%Q) ->
  bounds_step rels acc i = (Num lo', Num hi') -> (lo' <= hi')%Q.
Proof.
  destruct acc as [mn mx]. intros Hacc. unfold bounds_step.
  destruct (op (rel_at rels i)); intros [= Hlo Hhi].
  - apply Math_min_finite in Hlo as (a & -> & Ha).
    apply Math_max_finite in Hhi as (b & -> & Hb).
    specialize (Hacc a b eq_refl). lra.
  - subst mn. apply Math_max_finite in Hhi as (b & -> & Hb).
    specialize (Hacc lo' b eq_refl). lra.
  - subst mx. apply Math_min_finite in Hlo as (a & -> & Ha).
    specialize (Hacc a hi' eq_refl). lra.
  - subst. apply Hacc. reflexivity.
Qed.

Lemma bounds_loop_ordered rels (l : list nat) acc lo' hi' :
  (forall lo hi, acc = (Num lo, Num hi) -> (lo <= hi)%Q) ->
  fold_left (bounds_step rels) l acc = (Num lo', Num hi') -> (lo' <= hi')%Q.
Proof.
  revert acc. induction l as [|i l IH]; intros acc Hacc; simpl.
  - apply Hacc.
  - apply IH. intros lo hi. apply bounds_step_ordered. exact Hacc.
Qed.

(** A finite window is never empty: it holds at least the seed's two
    neighbours. *)
Lemma bounds_ordered rels lo hi :
  bounds rels = (Num lo, Num hi) -> (lo <= hi)%Q.
Proof.
  unfold bounds.
  destruct (fold_left _ _ _) as [mn mx] eqn:Hfold.
  destruct mn as [|a], mx as [|b]; simpl; try discriminate.
  intros [= <- <-].
  assert (a <= b)%Q.
  { eapply bounds_loop_ordered; [|exact Hfold].
    intros x y [= Hx Hy]. rewrite Hx in Hy. injection Hy as ->. lra. }
  change (inject_Z 1) with 1%Q. lra.
Qed.

(** ** [estimateElo] returns a best candidate of the window it searched *)

Theorem estimateElo_best_candidate (r0 : EloRelation) (rels : list EloRelation)
    (lo hi : Q) :
  bounds (r0 :: rels) = (Num lo, Num hi) ->
  let r := estimateElo (r0 :: rels) in
  (exists i, r = candidate (Num lo) i /\ (r <=? Num hi)%js = true) /\
  forall j, (candidate (Num lo) j <=? Num hi)%js = true ->
    (totalError (r0 :: rels) (candidate (Num lo) j)
       <? totalError (r0 :: rels) r)%js = false.
Proof.
  intros Hb r. subst r. unfold estimateElo. rewrite Hb.
  apply search_optimal. apply bounds_ordered with (r0 :: rels). exact Hb.
Qed.

(** ** Errors of parsed relations are numbers *)

Lemma relError_finite r t :
  parsed r -> finite t -> finite (relError r t).
Proof.
  intros Hr Ht. destruct t as [|t]; [destruct Ht|].
  unfold relError. destruct Hr as [Hop|Hv].
  - rewrite Hop. exact I.
  - destruct (value r) as [|v]; [destruct Hv|].
    destruct (op r); exact I.
Qed.

Lemma totalError_finite rels t :
  Forall parsed rels -> finite t -> finite (totalError rels t).
Proof.
  intros Hrels Ht. unfold totalError.
  assert (Hacc : finite (of_Z 0)) by exact I.
  revert Hacc. generalize (of_Z 0).
  induction Hrels as [|r rels Hr _ IH]; intros acc Hacc; simpl; [exact Hacc|].
  apply IH. pose proof (relError_finite r t Hr Ht) as He.
  destruct acc, (relError r t); simpl in *; try contradiction; exact I.
Qed.

Lemma ltb_false_leb a b :
  finite a -> finite b -> (a <? b)%js = false -> (b <=? a)%js = true.
Proof.
  destruct a as [|x], b as [|y]; simpl; try contradiction.
  intros _ _ H. apply negb_false_iff in H. exact H.
Qed.

Lemma candidate_finite lo j : finite (candidate (Num lo) j).
Proof. destruct (candidate_value lo j) as (q & Hq & _). rewrite Hq. exact I. Qed.

(** For parsed relations the error of the estimate is at most the error of
    every candidate of the window. *)
Theorem estimateElo_least_error (r0 : EloRelation) (rels : list EloRelation)
    (lo hi : Q) :
  Forall parsed (r0 :: rels) ->
  bounds (r0 :: rels) = (Num lo, Num hi) ->
  forall j, (candidate (Num lo) j <=? Num hi)%js = true ->
    (totalError (r0 :: rels) (estimateElo (r0 :: rels))
       <=? totalError (r0 :: rels) (candidate (Num lo) j))%js = true.
Proof.
  intros Hp Hb j Hj.
  destruct (estimateElo_best_candidate r0 rels lo hi Hb) as [_ Hmin].
  apply ltb_false_leb.
  - apply totalError_finite; [exact Hp|apply candidate_finite].
  - apply totalError_finite; [exact Hp|apply estimateElo_finite].
  - apply Hmin. exact Hj.
Qed.

(** ** Whole-number relations: the candidates are the integers of the window *)

Lemma add_of_Z (a b : Z) : (of_Z a + of_Z b)%js = of_Z (a + b).
Proof.
  unfold of_Z, add, lift2, Qplus, inject_Z. simpl.
  rewrite !Z.mul_1_r. reflexivity.
Qed.

Lemma sub_of_Z (a b : Z) : (of_Z a - of_Z b)%js = of_Z (a - b).
Proof.
  unfold of_Z, sub, lift2, Qminus, Qplus, Qopp, inject_Z. simpl.
  rewrite !Z.mul_1_r. reflexivity.
Qed.

Lemma candidate_of_Z (a : Z) (j : nat) :
  candidate (of_Z a) j = of_Z (a + Z.of_nat j).
Proof.
  induction j as [|j IH].
  - simpl. rewrite Z.add_0_r. reflexivity.
  - simpl candidate. rewrite IH, add_of_Z. f_equal. lia.
Qed.

Lemma leb_of_Z (a b : Z) : (of_Z a <=? of_Z b)%js = (a <=? b)%Z.
Proof.
  unfold of_Z, leb. apply eq_true_iff_eq.
  rewrite Qle_bool_iff, <- Zle_Qle, Z.leb_le. reflexivity.
Qed.

Lemma Math_min_of_Z (a b : Z) : Math_min (of_Z a) (of_Z b) = of_Z (Z.min b a).
Proof.
  unfold of_Z, Math_min. f_equal.
  destruct (Qle_bool (inject_Z a) (inject_Z b)) eqn:E.
  - apply Qle_bool_iff in E. rewrite <- Zle_Qle in E. f_equal. lia.
  - apply leb_false_inv in E. rewrite <- Zlt_Qlt in E. f_equal. lia.
Qed.

Lemma Math_max_of_Z (a b : Z) : Math_max (of_Z a) (of_Z b) = of_Z (Z.max b a).
Proof.
  unfold of_Z, Math_max. f_equal.
  destruct (Qle_bool (inject_Z a) (inject_Z b)) eqn:E.
  - apply Qle_bool_iff in E. rewrite <- Zle_Qle in E. f_equal. lia.
  - apply leb_false_inv in E. rewrite <- Zlt_Qlt in E. f_equal. lia.
Qed.

Lemma bounds_step_integral rels acc i :
  integral (rel_at rels 1) ->
  (exists a b, acc = (of_Z a, of_Z b)) ->
  exists a b, bounds_step rels acc i = (of_Z a, of_Z b).
Proof.
  intros [v Hv] (a & b & ->). unfold bounds_step. rewrite Hv.
  destruct (op (rel_at rels i));
    rewrite ?Math_min_of_Z, ?Math_max_of_Z; eauto.
Qed.

Lemma bounds_integral (r0 : EloRelation) (rels : list EloRelation) :
  Forall integral (r0 :: rels) ->
  exists a b, bounds (r0 :: rels) = (of_Z a, of_Z b).
Proof.
  intros Hint. unfold bounds.
  assert (Hfold : exists a b,
    fold_left (bounds_step (r0 :: rels))
      (seq 1 (length (r0 :: rels) - 1))
      (value (rel_at (r0 :: rels) 0), value (rel_at (r0 :: rels) 0))
    = (of_Z a, of_Z b)).
  { inversion Hint as [|? ? [z0 Hz0] Hrest]; subst.
    destruct rels as [|r1 rels].
    - simpl. change (rel_at [r0] 0) with r0. rewrite Hz0. eauto.
    - assert (H1 : integral (rel_at (r0 :: r1 :: rels) 1))
        by (change (rel_at (r0 :: r1 :: rels) 1) with r1;
            inversion Hrest; assumption).
      assert (Hseed : exists a b,
        (value (rel_at (r0 :: r1 :: rels) 0),
         value (rel_at (r0 :: r1 :: rels) 0)) = (of_Z a, of_Z b))
        by (change (rel_at (r0 :: r1 :: rels) 0) with r0; rewrite Hz0; eauto).
      revert Hseed. generalize (value (rel_at (r0 :: r1 :: rels) 0),
                                value (rel_at (r0 :: r1 :: rels) 0)).
      generalize (seq 1 (length (r0 :: r1 :: rels) - 1)).
      intros l. induction l as [|i l IH]; intros acc Hacc; simpl.
      + exact Hacc.
      + apply IH. apply bounds_step_integral; assumption. }
  destruct Hfold as (a & b & ->).
  exists (a - 1)%Z, (b + 1)%Z. rewrite sub_of_Z, add_of_Z. reflexivity.
Qed.

(** When every relation holds a whole number, the estimate is a whole number
    of the window the loop searched, and no whole number of that window has
    a smaller error. *)
Theorem estimateElo_integral (r0 : EloRelation) (rels : list EloRelation) :
  Forall integral (r0 :: rels) ->
  exists a b z : Z,
    bounds (r0 :: rels) = (of_Z a, of_Z b) /\
    estimateElo (r0 :: rels) = of_Z z /\ (a <= z <= b)%Z /\
    forall x : Z, (a <= x <= b)%Z ->
      (totalError (r0 :: rels) (of_Z z)
         <=? totalError (r0 :: rels) (of_Z x))%js = true.
Proof.
  intros Hint. destruct (bounds_integral r0 rels Hint) as (a & b & Hb).
  assert (Hp : Forall parsed (r0 :: rels)).
  { eapply Forall_impl; [exact Hint|]. intros r [z Hz]. right.
    rewrite Hz. exact I. }
  destruct (estimateElo_best_candidate r0 rels _ _ Hb) as [(i & Hr & Hin) _].
  change (Num (inject_Z a)) with (of_Z a) in Hr.
  rewrite candidate_of_Z in Hr.
  exists a, b, (a + Z.of_nat i)%Z. split; [exact Hb|]. split; [exact Hr|].
  split.
  - rewrite Hr in Hin. change (Num (inject_Z b)) with (of_Z b) in Hin.
    rewrite leb_of_Z in Hin. apply Z.leb_le in Hin. lia.
  - intros x Hx. rewrite <- Hr.
    replace x with (a + Z.of_nat (Z.to_nat (x - a)))%Z by lia.
    rewrite <- candidate_of_Z.
    apply (estimateElo_least_error r0 rels _ _ Hp Hb).
    change (Num (inject_Z a)) with (of_Z a).
    rewrite candidate_of_Z. change (Num (inject_Z b)) with (of_Z b).
    rewrite leb_of_Z. apply Z.leb_le. lia.
Qed.

(** ** The line pattern of [parseEloItem] *)

Lemma forallb_rev {A} (f : A -> bool) (l : list A) :
  forallb f (rev l) = forallb f l.
Proof.
  induction l as [|x l IH]; [reflexivity|].
  simpl. rewrite forallb_app, IH. simpl. rewrite andb_true_r. apply andb_comm.
Qed.

Lemma match_group2_closes (g2 : jsstring) :
  forallb dot g2 = true -> match_group2 (g2 ++ [RPAREN]) = Some g2.
Proof.
  intros Hdot. unfold match_group2. rewrite rev_app_distr. simpl.
  rewrite forallb_rev, Hdot, rev_involutive. reflexivity.
Qed.

Lemma match_group2_inv (rest g2 : jsstring) :
  match_group2 rest = Some g2 ->
  rest = g2 ++ [RPAREN] /\ forallb dot g2 = true.
Proof.
  unfold match_group2. destruct (rev rest) as [|c r] eqn:Hrev; [discriminate|].
  destruct (N.eqb c RPAREN) eqn:Hc; [|discriminate].
  destruct (forallb dot r) eqn:Hdot; [|discriminate].
  simpl. intros [= <-]. apply N.eqb_eq in Hc. subst c. split.
  - rewrite <- (rev_involutive rest), Hrev. reflexivity.
  - rewrite forallb_rev. exact Hdot.
Qed.

(** Without an opening parenthesis ahead the first group cannot end. *)
Lemma match_group1_no_paren (g1 s : jsstring) :
  free_of LPAREN s = true -> match_group1 g1 s = None.
Proof.
  revert g1. induction s as [|c s IH]; intros g1 Hfree; [reflexivity|].
  simpl in Hfree. apply andb_true_iff in Hfree as [Hc Hs].
  apply negb_true_iff in Hc. simpl. rewrite Hc, IH by exact Hs.
  destruct g1, (dot c); reflexivity.
Qed.

Lemma free_of_app c (s1 s2 : jsstring) :
  free_of c (s1 ++ s2) = free_of c s1 && free_of c s2.
Proof. apply forallb_app. Qed.

(** The first group runs to the last opening parenthesis. *)
Lemma match_group1_greedy (g1 s1 g2 : jsstring) :
  g1 ++ s1 <> [] ->
  forallb dot s1 = true -> forallb dot g2 = true ->
  free_of LPAREN g2 = true ->
  match_group1 g1 (s1 ++ LPAREN :: g2 ++ [RPAREN]) = Some (g1 ++ s1, g2).
Proof.
  revert g1. induction s1 as [|c s1 IH]; intros g1 Hne Hdot1 Hdot2 Hfree.
  - rewrite app_nil_r in *. simpl app.
    cbn [match_group1]. rewrite N.eqb_refl.
    rewrite match_group1_no_paren.
    + rewrite match_group2_closes by exact Hdot2.
      destruct g1; [contradiction|reflexivity].
    + rewrite free_of_app, Hfree. reflexivity.
  - simpl in Hdot1. apply andb_true_iff in Hdot1 as [Hc Hdot1].
    simpl app. cbn [match_group1]. rewrite Hc.
    rewrite IH; try assumption.
    + rewrite <- app_assoc. reflexivity.
    + rewrite <- app_assoc. simpl. intros H. apply app_eq_nil in H as [_ H].
      discriminate.
Qed.

Theorem relationsMatch_shape (g1 g2 : jsstring) :
  g1 <> [] ->
  forallb dot g1 = true -> forallb dot g2 = true ->
  free_of LPAREN g2 = true ->
  relationsMatch (g1 ++ LPAREN :: g2 ++ [RPAREN]) = Some (g1, g2).
Proof.
  intros Hne H1 H2 H3. unfold relationsMatch.
  rewrite match_group1_greedy; auto.
Qed.

(** The text before the last opening parenthesis of such a line. *)
Lemma after_first_app_free c (s1 s2 : jsstring) :
  free_of c s1 = true -> after_first c (s1 ++ c :: s2) = s2.
Proof.
  induction s1 as [|d s1 IH]; simpl.
  - rewrite N.eqb_refl. reflexivity.
  - intros H. apply andb_true_iff in H as [Hd Hs]. apply negb_true_iff in Hd.
    rewrite Hd. apply IH. exact Hs.
Qed.

Lemma free_of_rev c (s : jsstring) : free_of c (rev s) = free_of c s.
Proof. apply forallb_rev. Qed.

Lemma before_last_shape (g1 g2 : jsstring) :
  free_of LPAREN g2 = true ->
  before_last LPAREN (g1 ++ LPAREN :: g2 ++ [RPAREN]) = g1.
Proof.
  intros Hfree. unfold before_last.
  replace (g1 ++ LPAREN :: g2 ++ [RPAREN])
    with (g1 ++ LPAREN :: (g2 ++ [RPAREN])) by reflexivity.
  rewrite rev_app_distr. simpl rev. rewrite <- app_assoc. simpl app.
  rewrite after_first_app_free.
  - apply rev_involutive.
  - rewrite free_of_rev, free_of_app, Hfree. reflexivity.
Qed.

(** Every text splits at its last opening parenthesis, when it has one. *)
Lemma split_at_last (c : N) (s : jsstring) :
  free_of c s = false ->
  exists s1 s2, s = s1 ++ c :: s2 /\ free_of c s2 = true.
Proof.
  induction s as [|d s IH]; [discriminate|].
  simpl. destruct (free_of c s) eqn:Hs.
  - rewrite andb_true_r. intros Hd. apply negb_false_iff, N.eqb_eq in Hd.
    subst d. exists [], s. split; [reflexivity|exact Hs].
  - intros _. destruct (IH eq_refl) as (s1 & s2 & -> & H2).
    exists (d :: s1), s2. split; [reflexivity|exact H2].
Qed.

Lemma match_group1_inv (g s g1 g2 : jsstring) :
  match_group1 g s = Some (g1, g2) ->
  exists s1, g1 = g ++ s1 /\ s = s1 ++ LPAREN :: g2 ++ [RPAREN] /\
    g1 <> [] /\ forallb dot s1 = true /\ forallb dot g2 = true /\
    free_of LPAREN g2 = true.
Proof.
  revert g. induction s as [|c s IH]; intros g; [discriminate|].
  cbn [match_group1].
  destruct (dot c) eqn:Hc.
  - destruct (match_group1 (g ++ [c]) s) as [groups|] eqn:Hrec.
    + intros [= ->]. apply IH in Hrec as (s1 & -> & -> & Hne & H1 & H2 & H3).
      exists (c :: s1). rewrite <- app_assoc in *. simpl in *. rewrite Hc.
      repeat split; auto.
    + destruct g as [|d g]; [discriminate|].
      destruct (N.eqb c LPAREN) eqn:Hp; [|discriminate].
      destruct (match_group2 s) as [g2'|] eqn:H2; [|discriminate].
      intros [= <- <-]. apply N.eqb_eq in Hp. subst c.
      apply match_group2_inv in H2 as [-> Hdot2].
      exists []. rewrite app_nil_r. simpl. repeat split; auto.
      destruct (free_of LPAREN g2') eqn:Hfree; [reflexivity|exfalso].
      apply split_at_last in Hfree as (a & b & -> & Hb).
      rewrite forallb_app in Hdot2. apply andb_true_iff in Hdot2 as [Ha Hb'].
      simpl in Hb'.
      rewrite <- app_assoc in Hrec. simpl in Hrec.
      rewrite match_group1_greedy in Hrec; try assumption; [discriminate|].
      intros H. apply app_eq_nil in H as [H _]. discriminate.
  - destruct g as [|d g]; [discriminate|].
    destruct (N.eqb c LPAREN) eqn:Hp; [|discriminate].
    apply N.eqb_eq in Hp. subst c. discriminate.
Qed.

(** A line matches exactly when it is a non-empty text, an opening
    parenthesis, a text without one, and a closing parenthesis, all free of
    line terminators; the groups are the two texts. *)
Theorem relationsMatch_inv (s g1 g2 : jsstring) :
  relationsMatch s = Some (g1, g2) ->
  s = g1 ++ LPAREN :: g2 ++ [RPAREN] /\ g1 <> [] /\
  forallb dot g1 = true /\ forallb dot g2 = true /\
  free_of LPAREN g2 = true.
Proof.
  intros H. apply match_group1_inv in H as (s1 & -> & -> & H).
  split; [reflexivity|exact H].
Qed.

(** ** The two stores an update leads to *)

Lemma fresh_array_unused (σ : store) :
  arrays σ !! fresh (dom (arrays σ)) = None.
Proof. apply not_elem_of_dom. apply is_fresh. Qed.

Lemma fresh_array_other (σ : store) (a : ref) :
  is_Some (arrays σ !! a) -> a <> fresh (dom (arrays σ)).
Proof.
  intros [rels Ha] ->. rewrite fresh_array_unused in Ha. discriminate.
Qed.

Lemma settled_store_load σ item e oi :
  objects σ !! item = Some oi ->
  exists σ', settled_store σ item e = Some σ' /\
    load σ' item = Some (mkItem (o_title oi) e [mkRel eq_op e]) /\
    (forall l, l <> item -> objects σ' !! l = objects σ !! l) /\
    (forall a, is_Some (arrays σ !! a) -> arrays σ' !! a = arrays σ !! a).
Proof.
  intros Hi. unfold settled_store. rewrite Hi. eexists. split; [reflexivity|].
  split; [|split].
  - unfold load. cbn. rewrite lookup_insert_eq. cbn.
    rewrite lookup_insert_eq. reflexivity.
  - intros l Hl. cbn. apply lookup_insert_ne. congruence.
  - intros a Ha. cbn. apply lookup_insert_ne.
    apply not_eq_sym, fresh_array_other. exact Ha.
Qed.

Lemma incubated_store_load σ item r oi rels :
  objects σ !! item = Some oi ->
  arrays σ !! o_eloRelations oi = Some rels ->
  exists σ', incubated_store σ item r = Some σ' /\
    load σ' item
    = Some (mkItem (o_title oi) (estimateElo (rels ++ [r]))
              (pushed_relations rels r)) /\
    (forall l, l <> item -> objects σ' !! l = objects σ !! l) /\
    (forall a, a <> o_eloRelations oi -> is_Some (arrays σ !! a) ->
       arrays σ' !! a = arrays σ !! a).
Proof.
  intros Hi Ha. unfold incubated_store, pushed_relations. rewrite Hi, Ha.
  cbv zeta.
  set (rels' := rels ++ [r]). set (e := estimateElo rels').
  set (pushed := mkStore _ _).
  assert (Hpi : objects pushed !! item
                = Some (mkObj (o_title oi) e (o_eloRelations oi)))
    by apply lookup_insert_eq.
  destruct (ITEM_INCUBATION_TIME <? length rels')%nat.
  - destruct (settled_store_load pushed item e _ Hpi)
      as (σ' & Hσ' & Hload & Hobj & Harr).
    exists σ'. split; [exact Hσ'|]. split; [exact Hload|]. split.
    + intros l Hl. rewrite Hobj by exact Hl. cbn.
      apply lookup_insert_ne. congruence.
    + intros a Hne Hsome.
      assert (Hpa : arrays pushed !! a = arrays σ !! a)
        by (cbn; apply lookup_insert_ne; congruence).
      rewrite Harr; [exact Hpa|]. rewrite Hpa. exact Hsome.
  - exists pushed. split; [reflexivity|]. split; [|split].
    + unfold load. rewrite Hpi. cbn. rewrite lookup_insert_eq. reflexivity.
    + intros l Hl. cbn. apply lookup_insert_ne. congruence.
    + intros a Hne _. cbn. apply lookup_insert_ne. congruence.
Qed.

(** ** Running the updater

    Each method of the updater, run on a store, gives one of two stores. *)

Section UpdaterProps.

Variable Math_pow : number -> number -> number.

Local Opaque add sub mul div estimateElo Nat.ltb.

Ltac unfold_store_ops :=
  unfold update, after, updateRating, afterWinAgainst, afterLossAgainst,
    settle_if_incubated, estimateElo_item, pA, get_estimatedElo,
    set_estimatedElo, get_eloRelations, set_eloRelations, array_read,
    array_push, array_new, mbind, M_bind, mret, M_ret; cbn.

Lemma afterWinAgainst_definite σ item other oi oo :
  objects σ !! item = Some oi ->
  objects σ !! other = Some oo ->
  afterWinAgainst Math_pow (mkUpdater item true) other σ
  = option_map (pair tt)
      (settled_store σ item
         (o_estimatedElo oi + 32%Z * (1%Z - win_probability Math_pow (o_estimatedElo oi) (o_estimatedElo oo)))%js).
Proof.
  intros Hi Ho. unfold settled_store, win_probability. unfold_store_ops.
  repeat (first [rewrite Hi | rewrite Ho | rewrite lookup_insert_eq
                | rewrite insert_insert_eq]; cbn).
  reflexivity.
Qed.

Lemma afterWinAgainst_incubating σ item other oi oo :
  objects σ !! item = Some oi ->
  objects σ !! other = Some oo ->
  afterWinAgainst Math_pow (mkUpdater item false) other σ
  = option_map (pair tt)
      (incubated_store σ item
         (mkRel gt_op (o_estimatedElo oo - 32%Z * win_probability Math_pow (o_estimatedElo oo) (o_estimatedElo oi))%js)).
Proof.
  intros Hi Ho. unfold incubated_store, settled_store, win_probability. unfold_store_ops.
  repeat (first [rewrite Hi | rewrite Ho | rewrite lookup_insert_eq
                | rewrite insert_insert_eq]; cbn).
  destruct (arrays σ !! o_eloRelations oi) as [rels|] eqn:Ha; cbn; [|reflexivity].
  repeat (first [rewrite Hi | rewrite Ho | rewrite lookup_insert_eq
                | rewrite insert_insert_eq]; cbn).
  match goal with
  | |- context [(ITEM_INCUBATION_TIME <? ?n)%nat] =>
      destruct (ITEM_INCUBATION_TIME <? n)%nat
  end; cbn; [|reflexivity].
  repeat (first [rewrite Hi | rewrite Ho | rewrite lookup_insert_eq
                | rewrite insert_insert_eq]; cbn).
  reflexivity.
Qed.

Lemma afterLossAgainst_definite σ item other oi oo :
  objects σ !! item = Some oi ->
  objects σ !! other = Some oo ->
  afterLossAgainst Math_pow (mkUpdater item true) other σ
  = option_map (pair tt)
      (settled_store σ item
         (o_estimatedElo oi
          - 32%Z * win_probability Math_pow (o_estimatedElo oi)
                     (o_estimatedElo oo))%js).
Proof.
  intros Hi Ho. unfold settled_store, win_probability. unfold_store_ops.
  repeat (first [rewrite Hi | rewrite Ho | rewrite lookup_insert_eq
                | rewrite insert_insert_eq]; cbn).
  reflexivity.
Qed.

Lemma afterLossAgainst_incubating σ item other oi oo :
  objects σ !! item = Some oi ->
  objects σ !! other = Some oo ->
  afterLossAgainst Math_pow (mkUpdater item false) other σ
  = option_map (pair tt)
      (incubated_store σ item
         (mkRel lt_op
            (o_estimatedElo oo
             + 32%Z * (1%Z - win_probability Math_pow (o_estimatedElo oo)
                               (o_estimatedElo oi)))%js)).
Proof.
  intros Hi Ho. unfold incubated_store, settled_store, win_probability.
  unfold_store_ops.
  repeat (first [rewrite Hi | rewrite Ho | rewrite lookup_insert_eq
                | rewrite insert_insert_eq]; cbn).
  destruct (arrays σ !! o_eloRelations oi) as [rels|] eqn:Ha; cbn;
    [|reflexivity].
  repeat (first [rewrite Hi | rewrite Ho | rewrite lookup_insert_eq
                | rewrite insert_insert_eq]; cbn).
  match goal with
  | |- context [(ITEM_INCUBATION_TIME <? ?n)%nat] =>
      destruct (ITEM_INCUBATION_TIME <? n)%nat
  end; cbn; [|reflexivity].
  repeat (first [rewrite Hi | rewrite Ho | rewrite lookup_insert_eq
                | rewrite insert_insert_eq]; cbn).
  reflexivity.
Qed.

Lemma updateRating_run σ item oi rels :
  objects σ !! item = Some oi ->
  arrays σ !! o_eloRelations oi = Some rels ->
  updateRating item σ
  = Some (mkUpdater item (definite rels), σ).
Proof.
  intros Hi Ha. unfold_store_ops. rewrite Hi. cbn. rewrite Ha. reflexivity.
Qed.

End UpdaterProps.

(** ** Finite arithmetic *)

Lemma same_sym (a b : number) : a ≈ b -> b ≈ a.
Proof.
  destruct a, b; simpl; try contradiction; [trivial|].
  intros H. symmetry. exact H.
Qed.

Lemma add_finite (a b : number) : finite a -> finite b -> finite (a + b)%js.
Proof. destruct a, b; simpl; tauto. Qed.

Lemma sub_finite (a b : number) : finite a -> finite b -> finite (a - b)%js.
Proof. destruct a, b; simpl; tauto. Qed.

Lemma mul_finite (a b : number) : finite a -> finite b -> finite (a * b)%js.
Proof. destruct a, b; simpl; tauto. Qed.

Section Probability.

Variable Math_pow : number -> number -> number.

(** On a number the host's power of ten is a number that is not negative. *)
Hypothesis Math_pow_10 :
  forall q : Q, exists p : Q,
    Math_pow (of_Z 10) (Num q) = Num p /\ (0 <= p)%Q.

Lemma win_probability_finite (a b : number) :
  finite a -> finite b -> finite (win_probability Math_pow a b).
Proof.
  destruct a as [|x], b as [|y]; simpl; try contradiction. intros _ _.
  unfold win_probability. cbn [sub lift2 div of_Z].
  change (Qeq_bool (inject_Z 400) 0) with false. cbn iota.
  destruct (Math_pow_10 ((y - x) / inject_Z 400)) as (p & Hp & Hpos).
  rewrite Hp. cbn [add lift2 of_Z div].
  rewrite Qeq_bool_false; [exact I|].
  change (inject_Z 1) with 1%Q. lra.
Qed.

End Probability.

(** ** Relations pushed while incubating *)



Lemma pushed_relations_consistent rels r :
  estimateElo (rels ++ [r]) ≈ estimateElo (pushed_relations rels r).
Proof.
  unfold pushed_relations.
  destruct (ITEM_INCUBATION_TIME <? length (rels ++ [r]))%nat.
  - apply same_sym, estimateElo_single_eq_finite, estimateElo_finite.
  - apply same_refl.
Qed.


(** ** One call of a method of the updater *)

Lemma load_inv σ item it :
  load σ item = Some it ->
  exists oi, objects σ !! item = Some oi /\
    arrays σ !! o_eloRelations oi = Some (eloRelations it) /\
    title it = o_title oi /\ estimatedElo it = o_estimatedElo oi.
Proof.
  unfold load. destruct (objects σ !! item) as [oi|]; [|discriminate].
  destruct (arrays σ !! o_eloRelations oi) as [rels|] eqn:Ha; [|discriminate].
  intros [= <-]. exists oi. auto.
Qed.

Section Calls.

Variable Math_pow : number -> number -> number.

Lemma after_run σ u o other oi oo :
  objects σ !! u_item u = Some oi ->
  objects σ !! other = Some oo ->
  after Math_pow o u other σ
  = option_map (pair tt)
      (if isDefinite u
       then settled_store σ (u_item u)
              (new_strength Math_pow o (o_estimatedElo oi) (o_estimatedElo oo))
       else incubated_store σ (u_item u)
              (new_relation Math_pow o (o_estimatedElo oi) (o_estimatedElo oo))).
Proof.
  intros Hi Ho. destruct u as [item [|]], o; cbn [isDefinite u_item after] in *.
  - apply afterWinAgainst_definite; assumption.
  - apply afterLossAgainst_definite; assumption.
  - apply afterWinAgainst_incubating; assumption.
  - apply afterLossAgainst_incubating; assumption.
Qed.

(** A call goes through, leaves the bound item with the new relations and
    their estimate, and touches no other object and no array but that of
    the bound item. *)
Lemma after_load σ u o other oi oo rels :
  objects σ !! u_item u = Some oi ->
  arrays σ !! o_eloRelations oi = Some rels ->
  objects σ !! other = Some oo ->
  let e := new_strength Math_pow o (o_estimatedElo oi) (o_estimatedElo oo) in
  let r := new_relation Math_pow o (o_estimatedElo oi) (o_estimatedElo oo) in
  exists σ', after Math_pow o u other σ = Some (tt, σ') /\
    load σ' (u_item u)
    = Some (if isDefinite u
            then mkItem (o_title oi) e [mkRel eq_op e]
            else mkItem (o_title oi) (estimateElo (rels ++ [r]))
                        (pushed_relations rels r)) /\
    (forall l, l <> u_item u -> objects σ' !! l = objects σ !! l) /\
    (forall a, a <> o_eloRelations oi -> is_Some (arrays σ !! a) ->
       arrays σ' !! a = arrays σ !! a).
Proof.
  intros Hi Ha Ho e r. rewrite (after_run σ u o other oi oo Hi Ho).
  fold e r. destruct (isDefinite u).
  - destruct (settled_store_load σ (u_item u) e oi Hi)
      as (σ' & -> & Hload & Hobj & Harr).
    exists σ'. repeat split; auto.
  - destruct (incubated_store_load σ (u_item u) r oi rels Hi Ha)
      as (σ' & -> & Hload & Hobj & Harr).
    exists σ'. repeat split; auto.
Qed.

(** [updateRating(item).afterWinAgainst(other)] and the loss, on an item
    loaded from the store. *)
Lemma update_load σ item o other it oo :
  load σ item = Some it ->
  objects σ !! other = Some oo ->
  let e := new_strength Math_pow o (estimatedElo it) (o_estimatedElo oo) in
  let r := new_relation Math_pow o (estimatedElo it) (o_estimatedElo oo) in
  exists σ', update Math_pow item o other σ = Some (tt, σ') /\
    load σ' item
    = Some (if definite (eloRelations it)
            then mkItem (title it) e [mkRel eq_op e]
            else mkItem (title it) (estimateElo (eloRelations it ++ [r]))
                        (pushed_relations (eloRelations it) r)) /\
    (forall l, is_Some (objects σ !! l) -> is_Some (objects σ' !! l)).
Proof.
  intros Hload Ho e r.
  destruct (load_inv σ item it Hload) as (oi & Hi & Ha & Ht & He).
  destruct (after_load σ (mkUpdater item (definite (eloRelations it)))
              o other oi oo (eloRelations it) Hi Ha Ho)
    as (σ' & Hrun & Hload' & Hobj & _).
  exists σ'. split; [|split].
  - unfold update. unfold mbind, M_bind.
    rewrite (updateRating_run σ item oi (eloRelations it) Hi Ha). exact Hrun.
  - cbn [isDefinite u_item] in Hload'. rewrite Hload'.
    subst e r. rewrite Ht, He. reflexivity.
  - intros l Hl. destruct (decide (l = item)) as [->|Hne].
    + cbn [u_item] in Hload'. unfold load in Hload'.
      destruct (objects σ' !! item); [eauto|discriminate].
    + rewrite (Hobj l Hne). exact Hl.
Qed.

End Calls.


(** * The claims *)

(** ** The estimator *)

(** C9: estimating an empty relation list returns the default strength
    constant, which is 600. *)
Theorem C9_estimate_empty : estimateElo [] = DEFAULT_ELO /\ DEFAULT_ELO = of_Z 600.
Proof. split; reflexivity. Qed.

(** Where the loop of [bounds] runs at most once, reading index [1] is
    reading the relation's own value: up to two relations the window is the
    one the specification describes. *)
Lemma bounds_one (r0 : EloRelation) : bounds [r0] = window_spec r0 [].
Proof. reflexivity. Qed.

Lemma bounds_two (r0 r1 : EloRelation) :
  bounds [r0; r1] = window_spec r0 [r1].
Proof.
  unfold bounds, window_spec. simpl. unfold bounds_step, rel_at. simpl.
  destruct (op r1); reflexivity.
Qed.

(** C2: the window is seeded from the first relation and every later
    relation moves the bounds by its own value.  The code moves them by the
    value of the relation at index 1 instead: on [10, 20, 30] it searches
    9 .. 21 where the claim gives 9 .. 31. *)
Theorem C2_bounds_read_index_1 :
  bounds [Eq 10; Eq 20; Eq 30] = (of_Z 9, of_Z 21) /\
  window_spec (Eq 10) [Eq 20; Eq 30] = (of_Z 9, of_Z 31).
Proof. split; vm_compute; reflexivity. Qed.

(** C1: the estimate has the least total squared error among the integers
    of the window of the specification.  On [10, 10, 30] the code returns
    11, with error 363, while 17 lies in the window 9 .. 31 and has error
    267. *)
Theorem C1_estimate_not_least_in_window :
  let rels := [Eq 10; Eq 10; Eq 30] in
  estimateElo rels = of_Z 11 /\
  window_spec (Eq 10) [Eq 10; Eq 30] = (of_Z 9, of_Z 31) /\
  totalError rels (of_Z 11) = of_Z 363 /\
  totalError rels (of_Z 17) = of_Z 267 /\
  (totalError rels (of_Z 17) <? totalError rels (estimateElo rels))%js = true.
Proof. repeat split; vm_compute; reflexivity. Qed.

(** The same without any help from the window: on [0.5, >0.5] the
    candidates are -0.5, 0.5 and 1.5, the code returns 0.5, and the
    integer 1 of the window has a smaller error. *)
Lemma estimateElo_fraction_beaten_by_integer :
  let rels := [Eq (1 # 2); Gt (1 # 2)] in
  bounds rels = window_spec (Eq (1 # 2)) [Gt (1 # 2)] /\
  estimateElo rels = Num (1 # 2) /\
  (totalError rels (of_Z 1) <? totalError rels (estimateElo rels))%js = true.
Proof. repeat split; vm_compute; reflexivity. Qed.

(** C3: removing the unparseable relations of a list does not change the
    estimate.  In the code a list of one unparseable relation is estimated
    at 0 and the empty list at 600; an unparseable relation in front of an
    equality with 5 gives 0 and the equality alone gives 5; an unparseable
    relation at index 1 gives 0 where the two equalities alone give 6. *)
Theorem C3_unparseable_changes_estimate :
  (estimateElo [Nop] = of_Z 0 /\
   estimateElo (without_unparseable [Nop]) = of_Z 600) /\
  (estimateElo [Nop; Eq 5] = of_Z 0 /\
   estimateElo (without_unparseable [Nop; Eq 5]) = of_Z 5) /\
  (estimateElo [Eq 5; Nop; Eq 7] = of_Z 0 /\
   estimateElo (without_unparseable [Eq 5; Nop; Eq 7]) = of_Z 6).
Proof. repeat split; vm_compute; reflexivity. Qed.

(** What does hold of an unparseable relation: it adds nothing to the
    error, and the round of the first loop that meets it leaves the bounds
    as they are. *)
Lemma relError_unparseable (r : EloRelation) (testElo : number) :
  op r = nop_op -> relError r testElo = of_Z 0.
Proof. intros H. unfold relError. rewrite H. reflexivity. Qed.

Lemma bounds_step_unparseable (rels : list EloRelation)
    (acc : number * number) (i : nat) :
  op (rel_at rels i) = nop_op -> bounds_step rels acc i = acc.
Proof. intros H. unfold bounds_step. destruct acc. rewrite H. reflexivity. Qed.

(** The parser makes such lists: a token without digits is unparseable. *)
Example parse_unparseable_token :
  parseEloItem parseFloat_decimal (js "Bob (abc)")
  = mkItem (js "Bob") (of_Z 0) [Nop].
Proof. vm_compute. reflexivity. Qed.

(** C5: one equality with [v] is estimated at [v] rounded to an integer.
    The code returns 650.5 for 650.5, which is no integer. *)
Theorem C5_estimate_not_rounded :
  estimateElo [Eq (1301 # 2)] = Num (1301 # 2) /\
  forall z : Z, ~ (estimateElo [Eq (1301 # 2)] ≈ of_Z z).
Proof.
  assert (H : estimateElo [Eq (1301 # 2)] = Num (1301 # 2))
    by (vm_compute; reflexivity).
  split; [exact H|]. intros z. rewrite H. unfold same, of_Z, Qeq. simpl. lia.
Qed.

(** On whole numbers the claim holds. *)
Lemma estimateElo_single_integer (z : Z) :
  estimateElo [mkRel eq_op (of_Z z)] ≈ of_Z z.
Proof. apply estimateElo_single_eq. Qed.

(** ** The item parser *)

(** C4 as stated, with the title taken before the first opening
    parenthesis, fails on a line with two groups. *)
Lemma C4_title_not_before_first_paren :
  ~ (forall (parseFloat : jsstring -> number) (g1 g2 : jsstring),
       g1 <> [] -> forallb dot g1 = true -> forallb dot g2 = true ->
       free_of LPAREN g2 = true ->
       let line := g1 ++ LPAREN :: g2 ++ [RPAREN] in
       title (parseEloItem parseFloat line)
       = trim (before_first LPAREN line)).
Proof.
  intros H.
  specialize (H parseFloat_decimal (js "Team (A) ") (js "650")).
  vm_compute in H.
  assert (Hne : (84 :: 101 :: 97 :: 109 :: 32 :: 40 :: 65 :: 41 :: 32 :: [])%N
                <> []) by discriminate.
  specialize (H Hne eq_refl eq_refl eq_refl). discriminate.
Qed.

(** C4, amended: on a line made of a non-empty text, an opening
    parenthesis, a text without one and a closing parenthesis, all without
    line terminators, the title is the text before the last opening
    parenthesis, trimmed, and the relations are the comma-separated tokens
    of the text between the parentheses, each parsed. *)
Theorem C4_parseEloItem_trailing_group
    (parseFloat : jsstring -> number) (g1 g2 : jsstring) :
  g1 <> [] -> forallb dot g1 = true -> forallb dot g2 = true ->
  free_of LPAREN g2 = true ->
  let line := g1 ++ LPAREN :: g2 ++ [RPAREN] in
  title (parseEloItem parseFloat line) = trim (before_last LPAREN line) /\
  eloRelations (parseEloItem parseFloat line)
  = map (parseEloRelation parseFloat) (split COMMA g2).
Proof.
  intros Hne H1 H2 H3 line. subst line. unfold parseEloItem.
  rewrite relationsMatch_shape by assumption.
  rewrite before_last_shape by assumption. split; reflexivity.
Qed.

Lemma C4_witness :
  (js "Team (A) " <> [] /\ forallb dot (js "Team (A) ") = true /\
   forallb dot (js "650, <700") = true /\
   free_of LPAREN (js "650, <700") = true) /\
  title (parseEloItem parseFloat_decimal (js "Team (A) (650, <700)"))
  = js "Team (A)" /\
  eloRelations (parseEloItem parseFloat_decimal (js "Team (A) (650, <700)"))
  = [Eq 650; Lt 700].
Proof.
  assert (Hne : js "Team (A) " <> []) by discriminate.
  split; [repeat split; try reflexivity; exact Hne|].
  exact (C4_parseEloItem_trailing_group parseFloat_decimal
           (js "Team (A) ") (js "650, <700") Hne eq_refl eq_refl eq_refl).
Defined.

(** ** The rating updater *)

(** C6: on a settled item (one relation, an equality) [afterWinAgainst]
    sets the strength to [old + 32 * (1 - P)] and [afterLossAgainst] to
    [old - 32 * P], with [P] computed from the strengths both items had
    before the call, and the relations become one equality holding the new
    strength. *)
Theorem C6_settled_update (Math_pow : number -> number -> number)
    (σ : store) (item other : ref) (it : EloItem) (oo : ItemObject)
    (r : EloRelation) :
  load σ item = Some it ->
  eloRelations it = [r] -> op r = eq_op ->
  objects σ !! other = Some oo ->
  let old := estimatedElo it in
  let P := win_probability Math_pow old (o_estimatedElo oo) in
  let won := (old + 32%Z * (1%Z - P))%js in
  let lost := (old - 32%Z * P)%js in
  (exists σ', update Math_pow item Win other σ = Some (tt, σ') /\
     load σ' item = Some (mkItem (title it) won [mkRel eq_op won])) /\
  (exists σ', update Math_pow item Loss other σ = Some (tt, σ') /\
     load σ' item = Some (mkItem (title it) lost [mkRel eq_op lost])).
Proof.
  intros Hload Hrels Hop Ho old P won lost.
  assert (Hdef : definite (eloRelations it) = true)
    by (rewrite Hrels; unfold definite, rel_at; simpl; rewrite Hop;
        reflexivity).
  split.
  - destruct (update_load Math_pow σ item Win other it oo Hload Ho)
      as (σ' & Hrun & Hload' & _).
    rewrite Hdef in Hload'. exists σ'. split; [exact Hrun|exact Hload'].
  - destruct (update_load Math_pow σ item Loss other it oo Hload Ho)
      as (σ' & Hrun & Hload' & _).
    rewrite Hdef in Hload'. exists σ'. split; [exact Hrun|exact Hload'].
Qed.

Lemma C6_witness :
  (load two_items 0%nat
   = Some (mkItem (js "Alice") (of_Z 650) [mkRel eq_op (of_Z 650)]) /\
   objects two_items !! 1%nat = Some (mkObj (js "Bob") (of_Z 600) 1%nat)) /\
  (exists σ', update pow10_interp 0%nat Win 1%nat two_items = Some (tt, σ') /\
     exists e, load σ' 0%nat = Some (mkItem (js "Alice") e [mkRel eq_op e])) /\
  (exists σ', update pow10_interp 0%nat Loss 1%nat two_items = Some (tt, σ') /\
     exists e, load σ' 0%nat = Some (mkItem (js "Alice") e [mkRel eq_op e])).
Proof.
  split; [split; reflexivity|].
  destruct (C6_settled_update pow10_interp two_items 0%nat 1%nat
              (mkItem (js "Alice") (of_Z 650) [mkRel eq_op (of_Z 650)])
              (mkObj (js "Bob") (of_Z 600) 1%nat) (mkRel eq_op (of_Z 650))
              eq_refl eq_refl eq_refl eq_refl)
    as [(σ1 & H1 & L1) (σ2 & H2 & L2)].
  split; [exists σ1|exists σ2]; (split; [assumption|eexists; eassumption]).
Defined.

(** *** Incubation *)




Section Incubation.

Variable Math_pow : number -> number -> number.



End Incubation.



(** *** The cached estimate *)

Lemma parseEloItem_consistent (parseFloat : jsstring -> number) (line : jsstring) :
  consistent (parseEloItem parseFloat line).
Proof.
  unfold parseEloItem, consistent.
  destruct (relationsMatch line) as [[g1 g2]|]; apply same_refl.
Qed.

Lemma new_strength_finite (Math_pow : number -> number -> number) o own other :
  (forall q : Q, exists p : Q,
     Math_pow (of_Z 10) (Num q) = Num p /\ (0 <= p)%Q) ->
  finite own -> finite other ->
  finite (new_strength Math_pow o own other).
Proof.
  intros Hpow Hown Hother.
  pose proof (win_probability_finite Math_pow Hpow own other Hown Hother) as HP.
  destruct o; unfold new_strength.
  - apply add_finite; [exact Hown|]. apply mul_finite; [exact I|].
    apply sub_finite; [exact I|exact HP].
  - apply sub_finite; [exact Hown|]. apply mul_finite; [exact I|exact HP].
Qed.


(** Over the exact numbers the estimate stored in an item is the estimate
    of its relations, as a number, on every item the item parser makes and
    on the bound item after every call of [afterWinAgainst] and
    [afterLossAgainst]: the estimate of one equality is the value it holds.
    Over the host's numbers that last step is one of rounding, see
    below. *)
Lemma estimate_never_stale_exact
    (parseFloat : jsstring -> number) (Math_pow : number -> number -> number)
    (line : jsstring) (σ : store) (u : Updater) (o : outcome) (other : ref)
    (it : EloItem) (oo : ItemObject) :
  (forall q : Q, exists p : Q,
     Math_pow (of_Z 10) (Num q) = Num p /\ (0 <= p)%Q) ->
  load σ (u_item u) = Some it -> finite (estimatedElo it) ->
  objects σ !! other = Some oo -> finite (o_estimatedElo oo) ->
  consistent (parseEloItem parseFloat line) /\
  exists σ' it', after Math_pow o u other σ = Some (tt, σ') /\
    load σ' (u_item u) = Some it' /\ consistent it'.
Proof.
  intros Hpow Hload Hfin Ho Hfino. split; [apply parseEloItem_consistent|].
  destruct (load_inv σ (u_item u) it Hload) as (oi & Hi & Ha & Ht & He).
  destruct (after_load Math_pow σ u o other oi oo (eloRelations it) Hi Ha Ho)
    as (σ' & Hrun & Hload' & _).
  exists σ'. eexists. split; [exact Hrun|]. split; [exact Hload'|].
  unfold consistent. destruct (isDefinite u); cbn [estimatedElo eloRelations].
  - apply same_sym, estimateElo_single_eq_finite.
    apply new_strength_finite; [exact Hpow| rewrite <- He; exact Hfin
                               | exact Hfino].
  - apply pushed_relations_consistent.
Qed.

(** C8 as stated fails over the host's numbers, on both paths that store an
    equality without estimating it again.

    The items [a] and [b] are what the item parser makes of the lines
    [a (0.01)] and [b (0.01)].  When [a] loses to [b] the exponent is 0 and
    the host's power 1, so the settled branch stores [-15.99] and the one
    equality [-15.99]; the estimator on that list goes from [-16.99] one
    up and returns [-15.990000000000002].

    The items [x] and [y] are what the item parser makes of two lines with
    the four bounds [<-0.3]; their estimate is [-1.3].  When [x] loses to
    [y] it has five relations, is estimated at [-1.3] again and collapses
    to the one equality [-1.3]; the estimator on that list returns
    [-1.2999999999999998]. *)
#[warnings="-inexact-float"]
Lemma C8_stored_estimate_is_stale :
  let a := B64.mkItem (js "a") 0.010000000000000009%float
             [B64.mkRel eq_op 0.01%float] in
  let b := B64.mkItem (js "b") 0.010000000000000009%float
             [B64.mkRel eq_op 0.01%float] in
  let a' := B64.mkItem (js "a") (-15.99)%float
              [B64.mkRel eq_op (-15.99)%float] in
  let bounds4 := [B64.mkRel lt_op (-0.3)%float; B64.mkRel lt_op (-0.3)%float;
                  B64.mkRel lt_op (-0.3)%float; B64.mkRel lt_op (-0.3)%float] in
  let x := B64.mkItem (js "x") (-1.3)%float bounds4 in
  let y := B64.mkItem (js "y") (-1.3)%float bounds4 in
  let x' := B64.mkItem (js "x") (-1.3)%float
              [B64.mkRel eq_op (-1.3)%float] in
  (B64.estimateElo 3 (B64.eloRelations a) = Some (B64.estimatedElo a) /\
   B64.estimateElo 3 (B64.eloRelations x) = Some (B64.estimatedElo x)) /\
  (forall Math_pow : float -> float -> float,
     Math_pow 10%float 0%float = 1%float ->
     B64.update Math_pow 3 Loss a b = Some a' /\
     B64.update Math_pow 3 Loss x y = Some x') /\
  B64.estimateElo 3 (B64.eloRelations a') = Some (-15.990000000000002)%float /\
  B64.estimateElo 3 (B64.eloRelations x') = Some (-1.2999999999999998)%float /\
  ~ B64.consistent a' /\ ~ B64.consistent x'.
Proof.
  intros a b a' bounds4 x y x'.
  split; [split; vm_compute; reflexivity|].
  split.
  { intros Math_pow Hpow.
    split; vm_compute; rewrite Hpow; vm_compute; reflexivity. }
  split; [vm_compute; reflexivity|].
  split; [vm_compute; reflexivity|].
  split; intros H; specialize (H 3%nat _ eq_refl); vm_compute in H;
    discriminate.
Qed.

(** C8, amended: the estimate stored in an item the item parser makes is
    the estimator's result on the item's relations.  After a call of
    [afterWinAgainst] or [afterLossAgainst] with the settled flag set, the
    relations of the bound item are one equality that holds the stored
    estimate.  After a call without it, the stored estimate is the
    estimator's result on the relations with the new one behind them; that
    list is the item's list, unless it is longer than the incubation time,
    in which case the item's list is one equality that holds the stored
    estimate.  The equalities are of values the code copies, with no
    arithmetic between the two sides. *)
Theorem C8_stored_estimate
    (parseFloat : jsstring -> number) (Math_pow : number -> number -> number)
    (line : jsstring) (σ : store) (u : Updater) (o : outcome) (other : ref)
    (it : EloItem) (oo : ItemObject) :
  load σ (u_item u) = Some it ->
  objects σ !! other = Some oo ->
  estimatedElo (parseEloItem parseFloat line)
  = estimateElo (eloRelations (parseEloItem parseFloat line)) /\
  exists σ' it', after Math_pow o u other σ = Some (tt, σ') /\
    load σ' (u_item u) = Some it' /\
    if isDefinite u
    then eloRelations it' = [mkRel eq_op (estimatedElo it')]
    else
      let pushed :=
        eloRelations it
        ++ [new_relation Math_pow o (estimatedElo it) (o_estimatedElo oo)] in
      estimatedElo it' = estimateElo pushed /\
      eloRelations it'
      = if (ITEM_INCUBATION_TIME <? length pushed)%nat
        then [mkRel eq_op (estimatedElo it')]
        else pushed.
Proof.
  intros Hload Ho. split.
  { unfold parseEloItem.
    destruct (relationsMatch line) as [[g1 g2]|]; reflexivity. }
  destruct (load_inv σ (u_item u) it Hload) as (oi & Hi & Ha & Ht & He).
  destruct (after_load Math_pow σ u o other oi oo (eloRelations it) Hi Ha Ho)
    as (σ' & Hrun & Hload' & _).
  exists σ'. eexists. split; [exact Hrun|]. split; [exact Hload'|].
  destruct (isDefinite u); cbn [estimatedElo eloRelations].
  - reflexivity.
  - cbv zeta. rewrite He. split; [reflexivity|]. reflexivity.
Qed.

Lemma C8_stored_estimate_witness :
  (load two_items 1%nat = Some (mkItem (js "Bob") (of_Z 600) []) /\
   objects two_items !! 0%nat = Some (mkObj (js "Alice") (of_Z 650) 0%nat)) /\
  estimatedElo (parseEloItem parseFloat_decimal (js "Alice (650)"))
  = estimateElo (eloRelations (parseEloItem parseFloat_decimal
                                 (js "Alice (650)"))) /\
  exists σ' it',
    after pow10_interp Win (mkUpdater 1%nat false) 0%nat two_items
    = Some (tt, σ') /\
    load σ' 1%nat = Some it' /\
    let pushed := [] ++ [new_relation pow10_interp Win (of_Z 600) (of_Z 650)] in
    estimatedElo it' = estimateElo pushed /\
    eloRelations it'
    = if (ITEM_INCUBATION_TIME <? length pushed)%nat
      then [mkRel eq_op (estimatedElo it')]
      else pushed.
Proof.
  split; [split; reflexivity|].
  exact (C8_stored_estimate parseFloat_decimal pow10_interp
           (js "Alice (650)") two_items (mkUpdater 1%nat false) Win 0%nat
           (mkItem (js "Bob") (of_Z 600) [])
           (mkObj (js "Alice") (of_Z 650) 0%nat) eq_refl eq_refl).
Defined.

(** The amended statement reads the same over binary64: whenever a call
    returns, the item it leaves holds one equality on its stored estimate,
    or the estimate of the relations with the new one behind them. *)
Lemma binary64_stored_estimate (Math_pow : float -> float -> float)
    (fuel : nat) (o : outcome) (item other it' : B64.EloItem) :
  B64.update Math_pow fuel o item other = Some it' ->
  if B64.definite (B64.eloRelations item)
  then B64.eloRelations it' = [B64.mkRel eq_op (B64.estimatedElo it')]
  else
    exists r : B64.EloRelation,
      let pushed := B64.eloRelations item ++ [r] in
      B64.estimateElo fuel pushed = Some (B64.estimatedElo it') /\
      B64.eloRelations it'
      = if (ITEM_INCUBATION_TIME <? length pushed)%nat
        then [B64.mkRel eq_op (B64.estimatedElo it')]
        else pushed.
Proof.
  unfold B64.update.
  destruct (B64.definite (B64.eloRelations item)), o;
    cbn [B64.afterWinAgainst B64.afterLossAgainst].
  - intros [= <-]. reflexivity.
  - intros [= <-]. reflexivity.
  - unfold B64.settle_if_incubated. cbn [B64.eloRelations B64.title].
    destruct (B64.estimateElo fuel _) as [e|] eqn:He; [|discriminate].
    intros [= <-]. eexists. split; [exact He|reflexivity].
  - unfold B64.settle_if_incubated. cbn [B64.eloRelations B64.title].
    destruct (B64.estimateElo fuel _) as [e|] eqn:He; [|discriminate].
    intros [= <-]. eexists. split; [exact He|reflexivity].
Qed.

(** *** The opponent *)

(** C10: a call of [afterWinAgainst] or [afterLossAgainst] leaves the
    opponent as it was, title, stored estimate and relations: the opponent
    being another object than the bound item, with an array of its own. *)
Theorem C10_opponent_unchanged (Math_pow : number -> number -> number)
    (σ : store) (u : Updater) (o : outcome) (other : ref)
    (oi oo : ItemObject) :
  objects σ !! u_item u = Some oi ->
  objects σ !! other = Some oo ->
  is_Some (arrays σ !! o_eloRelations oi) ->
  is_Some (arrays σ !! o_eloRelations oo) ->
  other <> u_item u ->
  o_eloRelations oo <> o_eloRelations oi ->
  exists σ', after Math_pow o u other σ = Some (tt, σ') /\
    objects σ' !! other = Some oo /\
    load σ' other = load σ other.
Proof.
  intros Hi Ho [rels Ha] Hao Hne Hna.
  destruct (after_load Math_pow σ u o other oi oo rels Hi Ha Ho)
    as (σ' & Hrun & _ & Hobj & Harr).
  exists σ'. split; [exact Hrun|].
  assert (Hoo : objects σ' !! other = Some oo)
    by (rewrite (Hobj other Hne); exact Ho).
  split; [exact Hoo|]. unfold load. rewrite Hoo, Ho.
  rewrite (Harr (o_eloRelations oo) Hna Hao). reflexivity.
Qed.

Lemma C10_witness :
  (objects two_items !! 1%nat = Some (mkObj (js "Bob") (of_Z 600) 1%nat) /\
   objects two_items !! 0%nat = Some (mkObj (js "Alice") (of_Z 650) 0%nat) /\
   0%nat <> 1%nat) /\
  exists σ',
    after pow10_interp Win (mkUpdater 1%nat false) 0%nat two_items
    = Some (tt, σ') /\
    objects σ' !! 0%nat = Some (mkObj (js "Alice") (of_Z 650) 0%nat) /\
    load σ' 0%nat = load two_items 0%nat.
Proof.
  split; [repeat split; try reflexivity; discriminate|].
  apply (C10_opponent_unchanged pow10_interp two_items
           (mkUpdater 1%nat false) Win 0%nat
           (mkObj (js "Bob") (of_Z 600) 1%nat)
           (mkObj (js "Alice") (of_Z 650) 0%nat) eq_refl eq_refl).
  - eexists. reflexivity.
  - eexists. reflexivity.
  - discriminate.
  - discriminate.
Defined.

(** Where two objects share an array, as an item and its shallow copy do,
    a push through one shows in the other. *)
Example shared_array_is_pushed_to :
  let σ := mkStore {[ 0%nat := mkObj (js "Bob") (of_Z 600) 0%nat;
                      1%nat := mkObj (js "Bob") (of_Z 600) 0%nat;
                      2%nat := mkObj (js "Alice") (of_Z 650) 1%nat ]}
                   {[ 0%nat := []; 1%nat := [mkRel eq_op (of_Z 650)] ]} in
  exists σ' r,
    after pow10_interp Win (mkUpdater 1%nat false) 2%nat σ = Some (tt, σ') /\
    load σ 0%nat = Some (mkItem (js "Bob") (of_Z 600) []) /\
    load σ' 0%nat = Some (mkItem (js "Bob") (of_Z 600) [r]).
Proof. eexists _, _. vm_compute. repeat split; reflexivity. Qed.

(** * Further properties *)

(** ** The estimator *)

(** X1: whatever the relations, the estimate is a number, never [NaN]. *)
Theorem X1_estimate_is_a_number (rels : list EloRelation) :
  finite (estimateElo rels).
Proof. apply estimateElo_finite. Qed.







Section LowestBest.

Variable rels : list EloRelation.
Variables lo hi : Q.
Hypothesis rels_parsed : Forall parsed rels.

Local Abbreviation E := (totalError rels).
Local Abbreviation cand := (candidate (Num lo)).



End LowestBest.





(** *** A window without numbers *)

Lemma Math_min_NaN (v : number) : Math_min v NaN = NaN.
Proof. destruct v; reflexivity. Qed.

Lemma bounds_loop_NaN (rels : list EloRelation) (l : list nat) (mx : number) :
  exists mx', fold_left (bounds_step rels) l (NaN, mx) = (NaN, mx').
Proof.
  revert mx. induction l as [|i l IH]; intros mx; simpl; [eauto|].
  destruct (op (rel_at rels i)); rewrite ?Math_min_NaN; apply IH.
Qed.

(** X6: when the first relation holds no number (an unparseable token in
    front), the estimate is 0 whatever follows. *)
Theorem X6_estimate_without_seed (r0 : EloRelation)
    (rels : list EloRelation) :
  value r0 = NaN -> estimateElo (r0 :: rels) = of_Z 0.
Proof.
  intros Hseed. unfold estimateElo, bounds.
  change (rel_at (r0 :: rels) 0) with r0. rewrite Hseed.
  destruct (bounds_loop_NaN (r0 :: rels)
              (seq 1 (length (r0 :: rels) - 1)) NaN) as [mx' ->].
  apply search_stop. reflexivity.
Qed.

Lemma X6_witness :
  value Nop = NaN /\ estimateElo [Nop; Eq 650; Gt 700] = of_Z 0.
Proof.
  split; [reflexivity|].
  exact (X6_estimate_without_seed Nop [Eq 650; Gt 700] eq_refl).
Defined.

(** *** One relation that holds a whole number

    The numbers are taken no more than 2^52 from zero: there the host adds
    and subtracts whole numbers without rounding, as the exact numbers
    do. *)

Lemma integral_estimate (r0 : EloRelation) (rels : list EloRelation) (q : Q)
    (z : Z) :
  Forall integral (r0 :: rels) ->
  estimateElo (r0 :: rels) ≈ Num q -> (q == inject_Z z)%Q ->
  estimateElo (r0 :: rels) = of_Z z.
Proof.
  intros Hint Hsame Hq.
  destruct (estimateElo_integral r0 rels Hint) as (a & b & z' & _ & Hz' & _).
  rewrite Hz' in *. unfold of_Z, same in Hsame. rewrite Hq in Hsame.
  apply (proj1 (inject_Z_injective z' z)) in Hsame. subst z'. reflexivity.
Qed.

Lemma integral_one (o : EloRelationOp) (z : Z) :
  Forall integral [mkRel o (of_Z z)].
Proof. apply Forall_cons; split; [exists z; reflexivity|apply Forall_nil; exact I]. Qed.

(** X7: a single equality that holds a whole number is estimated at that
    number. *)
Theorem X7_estimate_single_whole_equality (z : Z) :
  (Z.abs z <= 2 ^ 52)%Z ->
  estimateElo [mkRel eq_op (of_Z z)] = of_Z z.
Proof.
  intros _. apply (integral_estimate _ _ (inject_Z z)).
  - apply integral_one.
  - apply estimateElo_single_eq.
  - reflexivity.
Qed.

Lemma X7_whole_equality_witness :
  (Z.abs 650 <= 2 ^ 52)%Z /\ estimateElo [mkRel eq_op (of_Z 650)] = of_Z 650.
Proof.
  assert (H : (Z.abs 650 <= 2 ^ 52)%Z) by (vm_compute; discriminate).
  split; [exact H|]. exact (X7_estimate_single_whole_equality 650 H).
Defined.

Lemma Qmax0_pos (x : Q) :
  (0 <= x)%Q -> ((if Qle_bool (inject_Z 0) x then x else inject_Z 0) == x)%Q.
Proof.
  intros H. change (inject_Z 0) with 0%Q.
  rewrite (proj2 (Qle_bool_iff 0 x) H). reflexivity.
Qed.

Lemma Qmax0_neg (x : Q) :
  (x <= 0)%Q -> ((if Qle_bool (inject_Z 0) x then x else inject_Z 0) == 0)%Q.
Proof.
  intros H. change (inject_Z 0) with 0%Q.
  destruct (Qle_bool 0 x) eqn:E; [|reflexivity].
  apply Qle_bool_iff in E. lra.
Qed.

Ltac window_of_one :=
  unfold estimateElo, bounds;
  cbn [length Nat.sub seq fold_left rel_at nth value];
  cbn [sub add lift2 of_Z]; unfold rounds;
  change (inject_Z 1) with 1%Q;
  match goal with
  | |- context [Qfloor (?e + 1 - (?e - 1))] =>
      assert (Hwidth : (e + 1 - (e - 1) == inject_Z 2)%Q)
        by (change (inject_Z 2) with 2%Q; lra);
      rewrite Hwidth, Qfloor_Z; clear Hwidth;
      change (Z.to_nat (2 + 1)) with 3%nat
  end.

Ltac error_of_one :=
  cbn [totalError fold_left relError op value sub add mul lift2 of_Z
         Math_abs Math_max eqb ltb leb];
  change (inject_Z 1) with 1%Q.

(** Over the exact numbers a single bound is estimated one step beyond its
    value, whatever the value. *)
Lemma estimateElo_single_bound (v : Q) :
  estimateElo [mkRel gt_op (Num v)] ≈ Num (v + 1) /\
  estimateElo [mkRel lt_op (Num v)] ≈ Num (v - 1).
Proof.
  split.
  - window_of_one.
    assert (A1 : ((if Qle_bool (inject_Z 0) (v - (v - 1) + 1)
                   then v - (v - 1) + 1 else inject_Z 0) == 2)%Q)
      by (rewrite Qmax0_pos by lra; lra).
    assert (A2 : ((if Qle_bool (inject_Z 0) (v - (v - 1 + 1) + 1)
                   then v - (v - 1 + 1) + 1 else inject_Z 0) == 1)%Q)
      by (rewrite Qmax0_pos by lra; lra).
    assert (A3 : ((if Qle_bool (inject_Z 0) (v - (v - 1 + 1 + 1) + 1)
                   then v - (v - 1 + 1 + 1) + 1 else inject_Z 0) == 0)%Q)
      by (rewrite Qmax0_pos by lra; lra).
    rewrite search_take; cycle 1.
    { simpl. apply Qle_bool_iff. lra. }
    { simpl. rewrite Qeq_bool_refl. reflexivity. }
    error_of_one.
    rewrite search_take; cycle 1.
    { simpl. apply Qle_bool_iff. lra. }
    { error_of_one. rewrite A1, A2. apply orb_true_r. }
    error_of_one.
    rewrite search_take; cycle 1.
    { simpl. apply Qle_bool_iff. lra. }
    { error_of_one. rewrite A2, A3. apply orb_true_r. }
    error_of_one.
    rewrite search_stop.
    + simpl. lra.
    + simpl. apply Qle_bool_false. lra.
  - window_of_one.
    assert (A1 : ((if Qle_bool (inject_Z 0) (v - 1 - v + 1)
                   then v - 1 - v + 1 else inject_Z 0) == 0)%Q)
      by (rewrite Qmax0_pos by lra; lra).
    assert (A2 : ((if Qle_bool (inject_Z 0) (v - 1 + 1 - v + 1)
                   then v - 1 + 1 - v + 1 else inject_Z 0) == 1)%Q)
      by (rewrite Qmax0_pos by lra; lra).
    assert (A3 : ((if Qle_bool (inject_Z 0) (v - 1 + 1 + 1 - v + 1)
                   then v - 1 + 1 + 1 - v + 1 else inject_Z 0) == 2)%Q)
      by (rewrite Qmax0_pos by lra; lra).
    rewrite search_take; cycle 1.
    { simpl. apply Qle_bool_iff. lra. }
    { simpl. rewrite Qeq_bool_refl. reflexivity. }
    error_of_one.
    rewrite search_keep; cycle 1.
    { simpl. apply Qle_bool_iff. lra. }
    { error_of_one. rewrite A1, A2. rewrite Qeq_bool_false by lra.
      reflexivity. }
    error_of_one.
    rewrite search_keep; cycle 1.
    { simpl. apply Qle_bool_iff. lra. }
    { error_of_one. rewrite A1, A3. rewrite Qeq_bool_false by lra.
      reflexivity. }
    error_of_one.
    rewrite search_stop.
    + simpl. lra.
    + simpl. apply Qle_bool_false. lra.
Qed.

(** X8: a single lower bound [> v] with a whole number [v] is estimated one
    above it, at [v + 1], and a single upper bound [< v] one below it, at
    [v - 1]. *)
Theorem X8_estimate_single_whole_bound (z : Z) :
  (Z.abs z <= 2 ^ 52)%Z ->
  estimateElo [mkRel gt_op (of_Z z)] = of_Z (z + 1) /\
  estimateElo [mkRel lt_op (of_Z z)] = of_Z (z - 1).
Proof.
  intros _. destruct (estimateElo_single_bound (inject_Z z)) as [Hgt Hlt].
  split.
  - apply (integral_estimate _ _ (inject_Z z + 1)).
    + apply integral_one.
    + exact Hgt.
    + rewrite inject_Z_plus. reflexivity.
  - apply (integral_estimate _ _ (inject_Z z - 1)).
    + apply integral_one.
    + exact Hlt.
    + unfold Z.sub. rewrite inject_Z_plus, inject_Z_opp. reflexivity.
Qed.

Lemma X8_whole_bound_witness :
  (Z.abs 700 <= 2 ^ 52)%Z /\
  estimateElo [mkRel gt_op (of_Z 700)] = of_Z 701 /\
  estimateElo [mkRel lt_op (of_Z 700)] = of_Z 699.
Proof.
  assert (H : (Z.abs 700 <= 2 ^ 52)%Z) by (vm_compute; discriminate).
  split; [exact H|]. exact (X8_estimate_single_whole_bound 700 H).
Defined.

(** *** A single relation over binary64

    The candidates are [v - 1], then one more each round, each sum rounded.
    With a fraction in [v] the second candidate need not be [v] again and
    the third may fall behind the window; on whole numbers nothing is
    rounded. *)
#[warnings="-inexact-float"]
Example binary64_single_relation :
  B64.estimateElo 3 [B64.mkRel eq_op 0.1%float]
  = Some 0.09999999999999998%float /\
  B64.estimateElo 3 [B64.mkRel gt_op (-7.2)%float]
  = Some (-7.199999999999999)%float /\
  B64.estimateElo 3 [B64.mkRel eq_op 650%float] = Some 650%float /\
  B64.estimateElo 3 [B64.mkRel gt_op 700%float] = Some 701%float.
Proof. repeat split; vm_compute; reflexivity. Qed.

(** At 10^16 one more is no more: the loop stays at its first candidate
    and no fuel is enough. *)
Lemma binary64_search_stalls (fuel : nat) :
  B64.search fuel [B64.mkRel eq_op 1e16%float]
    1e16%float 1e16%float 1e16%float 0%float 1e16%float = None.
Proof.
  induction fuel as [|fuel IH]; [vm_compute; reflexivity|exact IH].
Qed.

Example binary64_loop_does_not_end (fuel : nat) :
  B64.estimateElo fuel [B64.mkRel eq_op 1e16%float] = None.
Proof.
  destruct fuel as [|fuel]; [vm_compute; reflexivity|].
  exact (binary64_search_stalls fuel).
Qed.

(** *** The window around the first value *)

Lemma bounds_step_around (rels : list EloRelation) (acc : number * number)
    (i : nat) (v0 : Q) :
  (forall a b, acc = (Num a, Num b) -> (a <= v0 <= b)%Q) ->
  forall a b, bounds_step rels acc i = (Num a, Num b) -> (a <= v0 <= b)%Q.
Proof.
  destruct acc as [mn mx]. intros Hacc a b. unfold bounds_step.
  destruct (op (rel_at rels i)); intros [= Ha Hb].
  - apply Math_min_finite in Ha as (a0 & -> & Ha).
    apply Math_max_finite in Hb as (b0 & -> & Hb).
    specialize (Hacc a0 b0 eq_refl). lra.
  - subst mn. apply Math_max_finite in Hb as (b0 & -> & Hb).
    specialize (Hacc a b0 eq_refl). lra.
  - subst mx. apply Math_min_finite in Ha as (a0 & -> & Ha).
    specialize (Hacc a0 b eq_refl). lra.
  - subst. apply Hacc. reflexivity.
Qed.

Lemma bounds_loop_around (rels : list EloRelation) (l : list nat)
    (acc : number * number) (v0 : Q) :
  (forall a b, acc = (Num a, Num b) -> (a <= v0 <= b)%Q) ->
  forall a b, fold_left (bounds_step rels) l acc = (Num a, Num b) ->
    (a <= v0 <= b)%Q.
Proof.
  revert acc. induction l as [|i l IH]; intros acc Hacc; simpl.
  - exact Hacc.
  - apply IH. apply bounds_step_around. exact Hacc.
Qed.

(** X9: a window with numbers for bounds begins no higher than the value
    of the first relation less one and ends no lower than that value plus
    one, the difference and the sum taken as the host takes them. *)
Theorem X9_window_around_first_value (r0 : EloRelation)
    (rels : list EloRelation) (lo hi : Q) :
  bounds (r0 :: rels) = (Num lo, Num hi) ->
  (Num lo <=? value r0 - 1%Z)%js = true /\
  (value r0 + 1%Z <=? Num hi)%js = true.
Proof.
  unfold bounds. change (rel_at (r0 :: rels) 0) with r0.
  destruct (value r0) as [|v0] eqn:Hseed.
  - destruct (bounds_loop_NaN (r0 :: rels)
                (seq 1 (length (r0 :: rels) - 1)) NaN) as [mx' ->].
    discriminate.
  - destruct (fold_left _ _ _) as [mn mx] eqn:Hfold.
    destruct mn as [|a], mx as [|b]; simpl; try discriminate.
    intros [= <- <-].
    assert (H : (a <= v0 <= b)%Q).
    { eapply bounds_loop_around; [|exact Hfold].
      intros x y [= -> ->]. lra. }
    change (inject_Z 1) with 1%Q.
    split; apply Qle_bool_iff; lra.
Qed.

Lemma X9_first_value_witness :
  bounds [Eq 10; Gt 20] = (Num 9, Num 21) /\
  (Num 9 <=? value (Eq 10) - 1%Z)%js = true /\
  (value (Eq 10) + 1%Z <=? Num 21)%js = true.
Proof.
  split; [reflexivity|].
  exact (X9_window_around_first_value (Eq 10) [Gt 20] 9 21 eq_refl).
Defined.

(** ** The relation parser *)

(** X10: a parsed relation is unparseable exactly when it holds no number:
    [op] is [nop] if and only if [value] is [NaN]. *)
Theorem X10_relation_nop_iff_NaN (parseFloat : jsstring -> number)
    (s : jsstring) :
  op (parseEloRelation parseFloat s) = nop_op <->
  value (parseEloRelation parseFloat s) = NaN.
Proof.
  unfold parseEloRelation.
  destruct (trim s) as [|c t].
  - cbn [op value]. destruct (parseFloat []); simpl; split; congruence.
  - destruct (N.eqb c LESS); [|destruct (N.eqb c GREATER)]; cbn [op value];
      match goal with
      | |- context [isNaN (parseFloat ?x)] => destruct (parseFloat x)
      end; simpl; split; congruence.
Qed.

(** *** White space around a token *)

Lemma trimStart_app_space (w s : jsstring) :
  forallb isWhiteSpace w = true -> trimStart (w ++ s) = trimStart s.
Proof.
  induction w as [|c w IH]; [reflexivity|]. simpl.
  intros H. apply andb_true_iff in H as [Hc Hw].
  rewrite Hc. apply IH. exact Hw.
Qed.

Lemma trimStart_space (w : jsstring) :
  forallb isWhiteSpace w = true -> trimStart w = [].
Proof.
  intros H. rewrite <- (app_nil_r w). rewrite trimStart_app_space by exact H.
  reflexivity.
Qed.

Lemma trimEnd_app_space (s w : jsstring) :
  forallb isWhiteSpace w = true -> trimEnd (s ++ w) = trimEnd s.
Proof.
  intros H. unfold trimEnd. rewrite rev_app_distr.
  rewrite trimStart_app_space; [reflexivity|].
  rewrite forallb_rev. exact H.
Qed.

Lemma trim_app_space_r (s w : jsstring) :
  forallb isWhiteSpace w = true -> trim (s ++ w) = trim s.
Proof.
  intros Hw. unfold trim. induction s as [|c s IH].
  - simpl app. rewrite trimStart_space by exact Hw. reflexivity.
  - cbn [app trimStart]. destruct (isWhiteSpace c); [exact IH|].
    apply (trimEnd_app_space (c :: s) w Hw).
Qed.

Lemma trim_app_space (w1 s w2 : jsstring) :
  forallb isWhiteSpace w1 = true -> forallb isWhiteSpace w2 = true ->
  trim (w1 ++ s ++ w2) = trim s.
Proof.
  intros H1 H2. unfold trim at 1. rewrite trimStart_app_space by exact H1.
  apply (trim_app_space_r s w2 H2).
Qed.

(** X11: white space around a token does not matter to the relation
    parser. *)
Theorem X11_relation_ignores_space (parseFloat : jsstring -> number)
    (w1 s w2 : jsstring) :
  forallb isWhiteSpace w1 = true -> forallb isWhiteSpace w2 = true ->
  parseEloRelation parseFloat (w1 ++ s ++ w2) = parseEloRelation parseFloat s.
Proof.
  intros H1 H2. unfold parseEloRelation.
  rewrite trim_app_space by assumption. reflexivity.
Qed.

Lemma X11_witness :
  (forallb isWhiteSpace (js "  ") = true /\
   forallb isWhiteSpace (js " ") = true) /\
  parseEloRelation parseFloat_decimal (js "  <700.5 ")
  = parseEloRelation parseFloat_decimal (js "<700.5").
Proof.
  split; [split; reflexivity|].
  exact (X11_relation_ignores_space parseFloat_decimal
           (js "  ") (js "<700.5") (js " ") eq_refl eq_refl).
Defined.

(** ** The item parser, line by line *)

(** X12: a line is read as a title with relations exactly when it is a
    non-empty text, an opening parenthesis, a text without opening
    parenthesis and a closing parenthesis that ends the line, without line
    terminators; the two texts are the groups. *)
Theorem X12_line_pattern (s g1 g2 : jsstring) :
  relationsMatch s = Some (g1, g2) <->
  s = g1 ++ LPAREN :: g2 ++ [RPAREN] /\ g1 <> [] /\
  forallb dot g1 = true /\ forallb dot g2 = true /\
  free_of LPAREN g2 = true.
Proof.
  split.
  - apply relationsMatch_inv.
  - intros (-> & Hne & H1 & H2 & H3). apply relationsMatch_shape; assumption.
Qed.

Lemma free_of_paren_no_match (g1 g2 : jsstring) :
  free_of LPAREN (g1 ++ LPAREN :: g2) = false.
Proof. rewrite free_of_app. simpl. apply andb_false_r. Qed.

(** X13: a line without opening parenthesis, or one that does not end in a
    closing parenthesis, is a title and nothing else: no relations, the
    default strength. *)
Theorem X13_plain_line (parseFloat : jsstring -> number) (s : jsstring) :
  free_of LPAREN s = true \/ last s <> Some RPAREN ->
  parseEloItem parseFloat s = mkItem (trim s) DEFAULT_ELO [].
Proof.
  intros H. unfold parseEloItem.
  destruct (relationsMatch s) as [[g1 g2]|] eqn:Hm; [exfalso|reflexivity].
  apply relationsMatch_inv in Hm as (-> & _).
  destruct H as [H|H].
  - change (g1 ++ LPAREN :: g2 ++ [RPAREN])
      with (g1 ++ LPAREN :: (g2 ++ [RPAREN])) in H.
    rewrite free_of_paren_no_match in H. discriminate.
  - apply H. change (g1 ++ LPAREN :: g2 ++ [RPAREN])
      with (g1 ++ (LPAREN :: g2) ++ [RPAREN]).
    rewrite app_assoc. apply last_snoc.
Qed.

Lemma X13_witness :
  (free_of LPAREN (js "Bob") = true \/ last (js "Bob") <> Some RPAREN) /\
  parseEloItem parseFloat_decimal (js "Bob")
  = mkItem (js "Bob") DEFAULT_ELO [].
Proof.
  split; [left; reflexivity|].
  exact (X13_plain_line parseFloat_decimal (js "Bob") (or_introl eq_refl)).
Defined.

Lemma split_from_length (sep : N) (cur s : jsstring) :
  length (split_from sep cur s)
  = S (length (filter (fun c => N.eqb c sep = true) s)).
Proof.
  revert cur. induction s as [|c s IH]; intros cur; [reflexivity|].
  unfold jsstring in *. rewrite filter_cons. cbn [split_from].
  destruct (N.eqb c sep) eqn:Hc.
  - rewrite decide_True by reflexivity. cbn [length]. rewrite IH. reflexivity.
  - rewrite decide_False by discriminate. apply IH.
Qed.

(** X14: a line with a trailing group gets one relation for every token of
    the group, one more than the group has commas: never none. *)
Theorem X14_one_relation_per_token (parseFloat : jsstring -> number)
    (s g1 g2 : jsstring) :
  relationsMatch s = Some (g1, g2) ->
  length (eloRelations (parseEloItem parseFloat s))
  = S (length (filter (fun c => N.eqb c COMMA = true) g2)).
Proof.
  intros Hm. unfold parseEloItem. rewrite Hm. cbn [eloRelations with_estimatedElo].
  rewrite length_map. apply split_from_length.
Qed.

Lemma X14_witness :
  relationsMatch (js "Bob (1, >2,)") = Some (js "Bob ", js "1, >2,") /\
  length (eloRelations (parseEloItem parseFloat_decimal (js "Bob (1, >2,)")))
  = 3%nat.
Proof.
  split; [reflexivity|].
  exact (X14_one_relation_per_token parseFloat_decimal (js "Bob (1, >2,)")
           (js "Bob ") (js "1, >2,") eq_refl).
Defined.

Lemma parse_empty_parentheses (parseFloat : jsstring -> number)
    (g1 : jsstring) :
  parseFloat [] = NaN ->
  g1 <> [] -> forallb dot g1 = true ->
  parseEloItem parseFloat (g1 ++ [LPAREN; RPAREN])
  = mkItem (trim g1) (of_Z 0) [mkRel nop_op NaN].
Proof.
  intros Hnan Hne Hdot. unfold parseEloItem.
  change (g1 ++ [LPAREN; RPAREN]) with (g1 ++ LPAREN :: [] ++ [RPAREN]).
  rewrite (relationsMatch_shape g1 [] Hne Hdot eq_refl eq_refl).
  cbn [split split_from map]. unfold parseEloRelation.
  change (trim []) with (@nil N). cbv beta iota zeta. rewrite Hnan.
  reflexivity.
Qed.

(** X15: empty parentheses are one unparseable relation, and the item is
    estimated at 0 rather than at the default strength. *)
Theorem X15_empty_parentheses (parseFloat : jsstring -> number)
    (g1 : jsstring) :
  parseFloat [] = NaN ->
  g1 <> [] -> forallb dot g1 = true ->
  parseEloItem parseFloat (g1 ++ [LPAREN; RPAREN])
  = mkItem (trim g1) (of_Z 0) [mkRel nop_op NaN].
Proof. apply parse_empty_parentheses. Qed.

Lemma X15_witness :
  (parseFloat_decimal [] = NaN /\ js "Bob " <> [] /\
   forallb dot (js "Bob ") = true) /\
  parseEloItem parseFloat_decimal (js "Bob ()")
  = mkItem (js "Bob") (of_Z 0) [mkRel nop_op NaN].
Proof.
  assert (Hne : js "Bob " <> []) by discriminate.
  split; [split; [reflexivity|split; [exact Hne|reflexivity]]|].
  exact (X15_empty_parentheses parseFloat_decimal (js "Bob ") eq_refl Hne
           eq_refl).
Defined.

(** ** The list parser *)

Lemma parseEloItem_finite (parseFloat : jsstring -> number) (s : jsstring) :
  finite (estimatedElo (parseEloItem parseFloat s)).
Proof.
  unfold parseEloItem. destruct (relationsMatch s) as [[g1 g2]|].
  - apply estimateElo_finite.
  - exact I.
Qed.

Lemma sort_insert_perm {A : Type} (comparefn : A -> A -> number) (x : A)
    (l : list A) :
  sort_insert comparefn x l ≡ₚ x :: l.
Proof.
  induction l as [|y l IH]; [reflexivity|]. cbn [sort_insert].
  destruct (of_Z 0 <? comparefn x y)%js; [|reflexivity].
  rewrite IH. apply Permutation_swap.
Qed.

Lemma Array_sort_perm {A : Type} (comparefn : A -> A -> number) (l : list A) :
  Array_sort comparefn l ≡ₚ l.
Proof.
  induction l as [|x l IH]; [reflexivity|]. unfold Array_sort in *.
  cbn [fold_right]. rewrite sort_insert_perm, IH. reflexivity.
Qed.

Lemma byEloDescending_pos (x y : EloItem) :
  (of_Z 0 <? byEloDescending x y)%js = true ->
  exists a b, estimatedElo x = Num a /\ estimatedElo y = Num b /\ (a < b)%Q.
Proof.
  unfold byEloDescending.
  destruct (estimatedElo x) as [|a], (estimatedElo y) as [|b]; simpl;
    try discriminate.
  intros H. apply negb_true_iff, leb_false_inv in H.
  exists a, b. change (inject_Z 0) with 0%Q in H.
  split; [reflexivity|]. split; [reflexivity|]. lra.
Qed.

Lemma byEloDescending_not_pos (x y : EloItem) :
  finite (estimatedElo x) -> finite (estimatedElo y) ->
  (of_Z 0 <? byEloDescending x y)%js = false ->
  (estimatedElo y <=? estimatedElo x)%js = true.
Proof.
  unfold byEloDescending.
  destruct (estimatedElo x) as [|a], (estimatedElo y) as [|b]; simpl;
    try contradiction.
  intros _ _ H. apply negb_false_iff, Qle_bool_iff in H.
  apply Qle_bool_iff. change (inject_Z 0) with 0%Q in H. lra.
Qed.

Lemma leb_trans (a b c : number) :
  (a <=? b)%js = true -> (b <=? c)%js = true -> (a <=? c)%js = true.
Proof.
  destruct a, b, c; simpl; try discriminate.
  rewrite !Qle_bool_iff. intros. lra.
Qed.

Lemma sort_insert_sorted (x : EloItem) (l : list EloItem) :
  finite (estimatedElo x) ->
  Forall (fun it => finite (estimatedElo it)) l ->
  StronglySorted
    (fun a b => (estimatedElo b <=? estimatedElo a)%js = true) l ->
  StronglySorted
    (fun a b => (estimatedElo b <=? estimatedElo a)%js = true)
    (sort_insert byEloDescending x l).
Proof.
  intros Hx Hl Hs. induction Hs as [|y l Hs IH Hy].
  - repeat constructor.
  - inversion Hl as [|? ? Hfy Hl']; subst. cbn [sort_insert].
    destruct (of_Z 0 <? byEloDescending x y)%js eqn:Hc.
    + constructor; [apply IH; exact Hl'|].
      rewrite sort_insert_perm. constructor; [|exact Hy].
      apply byEloDescending_pos in Hc as (a & b & -> & -> & Hab).
      simpl. apply Qle_bool_iff. lra.
    + pose proof (byEloDescending_not_pos x y Hx Hfy Hc) as Hyx.
      constructor; [constructor; assumption|].
      constructor; [exact Hyx|].
      eapply Forall_impl; [exact Hy|]. intros z Hz. cbv beta in Hz.
      apply leb_trans with (estimatedElo y); assumption.
Qed.

Lemma Array_sort_sorted (l : list EloItem) :
  Forall (fun it => finite (estimatedElo it)) l ->
  StronglySorted
    (fun a b => (estimatedElo b <=? estimatedElo a)%js = true)
    (Array_sort byEloDescending l).
Proof.
  intros Hl. induction Hl as [|x l Hx Hl IH]; [constructor|].
  unfold Array_sort in *. cbn [fold_right].
  apply sort_insert_sorted; [exact Hx| |exact IH].
  fold (Array_sort byEloDescending l). rewrite Array_sort_perm. exact Hl.
Qed.

(** X16: the items of a parsed list come in descending order of estimate:
    every item's estimate is at most that of every item before it. *)
Theorem X16_parsed_list_descending (parseFloat : jsstring -> number)
    (s : jsstring) :
  StronglySorted
    (fun a b => (estimatedElo b <=? estimatedElo a)%js = true)
    (parseEloItems parseFloat s).
Proof.
  unfold parseEloItems. apply Array_sort_sorted.
  apply Forall_map, Forall_forall. intros line _. apply parseEloItem_finite.
Qed.

(** X17: a parsed list holds the items of the non-blank lines of the text,
    each line trimmed: sorting loses, adds and repeats none. *)
Theorem X17_parsed_list_items (parseFloat : jsstring -> number)
    (s : jsstring) :
  parseEloItems parseFloat s
  ≡ₚ map (parseEloItem parseFloat)
       (filter (fun item => truthy item = true) (map trim (split LF s))).
Proof. unfold parseEloItems. apply Array_sort_perm. Qed.

Lemma sort_insert_stable (e : number) (x : EloItem) (l : list EloItem) :
  filter (fun it => (estimatedElo it ==? e)%js = true)
         (sort_insert byEloDescending x l)
  = filter (fun it => (estimatedElo it ==? e)%js = true) (x :: l).
Proof.
  induction l as [|y l IH]; [reflexivity|]. cbn [sort_insert].
  destruct (of_Z 0 <? byEloDescending x y)%js eqn:Hc; [|reflexivity].
  rewrite (filter_cons _ y), IH, !filter_cons.
  destruct (decide ((estimatedElo x ==? e)%js = true)) as [Hx|Hx];
    [|reflexivity].
  destruct (decide ((estimatedElo y ==? e)%js = true)) as [Hy|Hy];
    [exfalso|reflexivity].
  apply byEloDescending_pos in Hc as (a & b & Ha & Hb & Hab).
  rewrite Ha in Hx. rewrite Hb in Hy. destruct e as [|q]; [discriminate|].
  simpl in Hx, Hy. apply Qeq_bool_iff in Hx, Hy. lra.
Qed.

Lemma Array_sort_stable (e : number) (l : list EloItem) :
  filter (fun it => (estimatedElo it ==? e)%js = true)
         (Array_sort byEloDescending l)
  = filter (fun it => (estimatedElo it ==? e)%js = true) l.
Proof.
  induction l as [|x l IH]; [reflexivity|]. unfold Array_sort in *.
  cbn [fold_right]. rewrite sort_insert_stable, !filter_cons, IH.
  reflexivity.
Qed.

(** X18: items of equal estimate keep the order their lines have in the
    text. *)
Theorem X18_parsed_list_stable (parseFloat : jsstring -> number)
    (s : jsstring) (e : number) :
  filter (fun it => (estimatedElo it ==? e)%js = true)
         (parseEloItems parseFloat s)
  = filter (fun it => (estimatedElo it ==? e)%js = true)
      (map (parseEloItem parseFloat)
         (filter (fun item => truthy item = true) (map trim (split LF s)))).
Proof. unfold parseEloItems. apply Array_sort_stable. Qed.

(** ** The rating updater, on strengths *)

Section Adjustments.

Variable Math_pow : number -> number -> number.

Hypothesis Math_pow_10 :
  forall q : Q, exists p : Q,
    Math_pow (of_Z 10) (Num q) = Num p /\ (0 <= p)%Q.




End Adjustments.



(** X20: a settled item stays settled: after a win or a loss it has one
    relation again, an equality, and the title it had. *)
Theorem X20_settled_stays_settled (Math_pow : number -> number -> number)
    (σ : store) (item other : ref) (o : outcome) (it : EloItem)
    (oo : ItemObject) :
  load σ item = Some it -> definite (eloRelations it) = true ->
  objects σ !! other = Some oo ->
  exists σ' it',
    update Math_pow item o other σ = Some (tt, σ') /\
    load σ' item = Some it' /\
    definite (eloRelations it') = true /\ title it' = title it.
Proof.
  intros Hload Hdef Ho.
  destruct (update_load Math_pow σ item o other it oo Hload Ho)
    as (σ' & Hrun & Hload' & _).
  rewrite Hdef in Hload'. eexists σ', _.
  split; [exact Hrun|]. split; [exact Hload'|]. split; reflexivity.
Qed.

Lemma X20_witness :
  (load two_items 0%nat
   = Some (mkItem (js "Alice") (of_Z 650) [mkRel eq_op (of_Z 650)]) /\
   definite [mkRel eq_op (of_Z 650)] = true /\
   objects two_items !! 1%nat = Some (mkObj (js "Bob") (of_Z 600) 1%nat)) /\
  exists σ' it',
    update pow10_interp 0%nat Loss 1%nat two_items = Some (tt, σ') /\
    load σ' 0%nat = Some it' /\
    definite (eloRelations it') = true /\ title it' = js "Alice".
Proof.
  split; [repeat split; reflexivity|].
  exact (X20_settled_stays_settled pow10_interp two_items 0%nat 1%nat Loss
           (mkItem (js "Alice") (of_Z 650) [mkRel eq_op (of_Z 650)])
           (mkObj (js "Bob") (of_Z 600) 1%nat) eq_refl eq_refl eq_refl).
Defined.



(** ** One comparison in the click handlers *)

Lemma fresh_object_unused (σ : store) :
  objects σ !! fresh (dom (objects σ)) = None.
Proof. apply not_elem_of_dom. apply is_fresh. Qed.

Lemma settled_store_ref σ item e oi σ' :
  objects σ !! item = Some oi ->
  settled_store σ item e = Some σ' ->
  exists o', objects σ' !! item = Some o' /\
    arrays σ !! o_eloRelations o' = None.
Proof.
  intros Hi. unfold settled_store. rewrite Hi. intros [= <-].
  eexists. cbn. rewrite lookup_insert_eq. split; [reflexivity|].
  cbn. apply fresh_array_unused.
Qed.

Lemma incubated_store_ref σ item r oi σ' :
  objects σ !! item = Some oi ->
  incubated_store σ item r = Some σ' ->
  exists o', objects σ' !! item = Some o' /\
    (o_eloRelations o' = o_eloRelations oi \/
     arrays σ !! o_eloRelations o' = None).
Proof.
  intros Hi. unfold incubated_store. rewrite Hi.
  destruct (arrays σ !! o_eloRelations oi) as [rels|] eqn:Ha; [|discriminate].
  cbv zeta. set (pushed := mkStore _ _).
  assert (Hpi : objects pushed !! item
                = Some (mkObj (o_title oi) (estimateElo (rels ++ [r]))
                          (o_eloRelations oi)))
    by apply lookup_insert_eq.
  destruct (ITEM_INCUBATION_TIME <? length (rels ++ [r]))%nat.
  - intros Hs.
    destruct (settled_store_ref pushed item _ _ σ' Hpi Hs) as (o' & Ho' & Hf).
    exists o'. split; [exact Ho'|]. right.
    cbn in Hf. apply lookup_insert_None in Hf as [Hf _]. exact Hf.
  - intros [= <-]. eexists. split; [exact Hpi|]. left. reflexivity.
Qed.

Section Comparison.

Variable Math_pow : number -> number -> number.

(** All an update does to the store. *)
Lemma update_effect σ item o other oi oo rels :
  objects σ !! item = Some oi ->
  arrays σ !! o_eloRelations oi = Some rels ->
  objects σ !! other = Some oo ->
  exists σ' o',
    update Math_pow item o other σ = Some (tt, σ') /\
    objects σ' !! item = Some o' /\
    load σ' item
    = Some (updated Math_pow o
              (mkItem (o_title oi) (o_estimatedElo oi) rels)
              (o_estimatedElo oo)) /\
    (o_eloRelations o' = o_eloRelations oi \/
     arrays σ !! o_eloRelations o' = None) /\
    (forall l, l <> item -> objects σ' !! l = objects σ !! l) /\
    (forall a, a <> o_eloRelations oi -> is_Some (arrays σ !! a) ->
       arrays σ' !! a = arrays σ !! a).
Proof.
  intros Hi Ha Ho.
  destruct (after_load Math_pow σ (mkUpdater item (definite rels)) o other
              oi oo rels Hi Ha Ho) as (σ' & Hrun & Hload & Hobj & Harr).
  assert (Href : exists o', objects σ' !! item = Some o' /\
            (o_eloRelations o' = o_eloRelations oi \/
             arrays σ !! o_eloRelations o' = None)).
  { rewrite (after_run Math_pow σ (mkUpdater item (definite rels)) o other
               oi oo Hi Ho) in Hrun.
    cbn [isDefinite u_item] in Hrun. destruct (definite rels).
    - destruct (settled_store σ item _) as [σ1|] eqn:Hs; [|discriminate].
      injection Hrun as <-.
      destruct (settled_store_ref σ item _ oi σ1 Hi Hs) as (o' & Ho' & Hf).
      exists o'. auto.
    - destruct (incubated_store σ item _) as [σ1|] eqn:Hs; [|discriminate].
      injection Hrun as <-.
      exact (incubated_store_ref σ item _ oi σ1 Hi Hs). }
  destruct Href as (o' & Ho' & Href).
  exists σ', o'. split; [|split; [exact Ho'|split; [|auto]]].
  - unfold update, mbind, M_bind.
    rewrite (updateRating_run σ item oi rels Hi Ha). exact Hrun.
  - exact Hload.
Qed.

Lemma choose_effect (σ : store) (o : outcome)
    (leftItem rightItem : ref) (ol or : ItemObject)
    (rels_l rels_r : list EloRelation) :
  objects σ !! leftItem = Some ol ->
  objects σ !! rightItem = Some or ->
  arrays σ !! o_eloRelations ol = Some rels_l ->
  arrays σ !! o_eloRelations or = Some rels_r ->
  o_eloRelations ol <> o_eloRelations or ->
  exists σ' l' r',
    choose Math_pow o leftItem rightItem σ = Some ((l', r'), σ') /\
    load σ' l'
    = Some (updated Math_pow o
              (mkItem (o_title ol) (o_estimatedElo ol) rels_l)
              (o_estimatedElo or)) /\
    load σ' r'
    = Some (updated Math_pow (opposite o)
              (mkItem (o_title or) (o_estimatedElo or) rels_r)
              (o_estimatedElo ol)) /\
    objects σ' !! leftItem = Some ol /\
    objects σ' !! rightItem = Some or.
Proof.
  intros Hl Hr Hal Har Hne.
  set (l' := fresh (dom (objects σ))).
  set (σ1 := mkStore (<[l' := ol]> (objects σ)) (arrays σ)).
  set (r' := fresh (dom (objects σ1))).
  set (σ2 := mkStore (<[r' := or]> (objects σ1)) (arrays σ1)).
  assert (Hl'l : leftItem <> l')
    by (intros ->; unfold l' in Hl; rewrite fresh_object_unused in Hl;
        discriminate).
  assert (Hl'r : rightItem <> l')
    by (intros ->; unfold l' in Hr; rewrite fresh_object_unused in Hr;
        discriminate).
  assert (Hl1 : objects σ1 !! leftItem = Some ol)
    by (cbn; rewrite lookup_insert_ne by congruence; exact Hl).
  assert (Hr1 : objects σ1 !! rightItem = Some or)
    by (cbn; rewrite lookup_insert_ne by congruence; exact Hr).
  assert (Hl'1 : objects σ1 !! l' = Some ol) by (cbn; apply lookup_insert_eq).
  assert (Hr'l : leftItem <> r')
    by (intros ->; unfold r' in Hl1; rewrite fresh_object_unused in Hl1;
        discriminate).
  assert (Hr'r : rightItem <> r')
    by (intros ->; unfold r' in Hr1; rewrite fresh_object_unused in Hr1;
        discriminate).
  assert (Hr'l' : l' <> r')
    by (intros E; unfold r' in E; rewrite E in Hl'1;
        rewrite fresh_object_unused in Hl'1; discriminate).
  assert (Hl2 : objects σ2 !! leftItem = Some ol)
    by (cbn; rewrite lookup_insert_ne by congruence; exact Hl1).
  assert (Hr2 : objects σ2 !! rightItem = Some or)
    by (cbn; rewrite lookup_insert_ne by congruence; exact Hr1).
  assert (Hl'2 : objects σ2 !! l' = Some ol)
    by (cbn; rewrite lookup_insert_ne by congruence; exact Hl'1).
  assert (Hr'2 : objects σ2 !! r' = Some or) by (cbn; apply lookup_insert_eq).
  destruct (update_effect σ2 l' o rightItem ol or rels_l Hl'2 Hal Hr2)
    as (σ3 & ol3 & Hrun3 & Hol3 & Hload3 & Href3 & Hobj3 & Harr3).
  assert (Hr'3 : objects σ3 !! r' = Some or)
    by (rewrite Hobj3 by congruence; exact Hr'2).
  assert (Hl3 : objects σ3 !! leftItem = Some ol)
    by (rewrite Hobj3 by congruence; exact Hl2).
  assert (Har3 : arrays σ3 !! o_eloRelations or = Some rels_r)
    by (rewrite Harr3; [exact Har|congruence|cbn; rewrite Har; eauto]).
  destruct (update_effect σ3 r' (opposite o) leftItem or ol rels_r
              Hr'3 Har3 Hl3)
    as (σ4 & or4 & Hrun4 & Hor4 & Hload4 & _ & Hobj4 & Harr4).
  exists σ4, l', r'. split; [|split; [|split; [exact Hload4|split]]].
  - unfold choose, mbind, M_bind, object_copy.
    rewrite Hl. fold l' σ1. rewrite Hr1. fold r' σ2.
    rewrite Hrun3, Hrun4. reflexivity.
  - rewrite <- Hload3. unfold load.
    rewrite (Hobj4 l') by congruence. rewrite Hol3.
    assert (Hsome : is_Some (arrays σ3 !! o_eloRelations ol3)).
    { unfold load in Hload3. rewrite Hol3 in Hload3.
      destruct (arrays σ3 !! o_eloRelations ol3); [eauto|discriminate]. }
    rewrite Harr4; [reflexivity| |exact Hsome].
    destruct Href3 as [E|E]; [rewrite E; exact Hne|].
    intros E'. rewrite E' in E. cbn in E. rewrite Har in E. discriminate.
  - rewrite Hobj4 by congruence. exact Hl3.
  - rewrite Hobj4 by congruence. rewrite Hobj3 by congruence. exact Hr2.
Qed.

End Comparison.

(** X22: in a comparison each of the two chosen items is updated from the
    strength the other had before the comparison, whichever update runs
    first; the updated items are new objects and the two chosen objects
    keep their fields. *)
Theorem X22_comparison_uses_old_strengths
    (Math_pow : number -> number -> number) (σ : store) (o : outcome)
    (leftItem rightItem : ref) (ol or : ItemObject)
    (rels_l rels_r : list EloRelation) :
  objects σ !! leftItem = Some ol ->
  objects σ !! rightItem = Some or ->
  arrays σ !! o_eloRelations ol = Some rels_l ->
  arrays σ !! o_eloRelations or = Some rels_r ->
  o_eloRelations ol <> o_eloRelations or ->
  exists σ' l' r',
    choose Math_pow o leftItem rightItem σ = Some ((l', r'), σ') /\
    load σ' l'
    = Some (updated Math_pow o
              (mkItem (o_title ol) (o_estimatedElo ol) rels_l)
              (o_estimatedElo or)) /\
    load σ' r'
    = Some (updated Math_pow (opposite o)
              (mkItem (o_title or) (o_estimatedElo or) rels_r)
              (o_estimatedElo ol)) /\
    objects σ' !! leftItem = Some ol /\
    objects σ' !! rightItem = Some or.
Proof. apply choose_effect. Qed.

Lemma X22_witness :
  (objects two_items !! 0%nat = Some (mkObj (js "Alice") (of_Z 650) 0%nat) /\
   objects two_items !! 1%nat = Some (mkObj (js "Bob") (of_Z 600) 1%nat) /\
   arrays two_items !! 0%nat = Some [mkRel eq_op (of_Z 650)] /\
   arrays two_items !! 1%nat = Some [] /\ 0%nat <> 1%nat) /\
  exists σ' l' r',
    choose pow10_interp Win 0%nat 1%nat two_items = Some ((l', r'), σ') /\
    load σ' l'
    = Some (updated pow10_interp Win
              (mkItem (js "Alice") (of_Z 650) [mkRel eq_op (of_Z 650)])
              (of_Z 600)) /\
    load σ' r'
    = Some (updated pow10_interp Loss (mkItem (js "Bob") (of_Z 600) [])
              (of_Z 650)) /\
    objects σ' !! 0%nat = Some (mkObj (js "Alice") (of_Z 650) 0%nat) /\
    objects σ' !! 1%nat = Some (mkObj (js "Bob") (of_Z 600) 1%nat).
Proof.
  assert (Hne : 0%nat <> 1%nat) by discriminate.
  split; [repeat split; try reflexivity; exact Hne|].
  exact (X22_comparison_uses_old_strengths pow10_interp two_items Win
           0%nat 1%nat (mkObj (js "Alice") (of_Z 650) 0%nat)
           (mkObj (js "Bob") (of_Z 600) 1%nat) [mkRel eq_op (of_Z 650)] []
           eq_refl eq_refl eq_refl eq_refl Hne).
Defined.

(** ** The serializer *)

Lemma split_from_app_free (sep : N) (cur s rest : jsstring) :
  free_of sep s = true ->
  split_from sep cur (s ++ rest) = split_from sep (cur ++ s) rest.
Proof.
  revert cur. induction s as [|c s IH]; intros cur Hfree.
  - rewrite app_nil_r. reflexivity.
  - simpl in Hfree. apply andb_true_iff in Hfree as [Hc Hs].
    apply negb_true_iff in Hc. cbn [app split_from]. rewrite Hc.
    rewrite IH by exact Hs. rewrite <- app_assoc. reflexivity.
Qed.

(** Splitting at the commas what was joined with comma and space gives the
    pieces back, each but the first behind a space. *)
Lemma split_join (cur p : jsstring) (ps : list jsstring) :
  Forall (fun s => free_of COMMA s = true) (p :: ps) ->
  split_from COMMA cur (join (js ", ") (p :: ps))
  = (cur ++ p) :: map (cons SPACE) ps.
Proof.
  revert cur p. induction ps as [|p2 ps IH]; intros cur p Hfree.
  - cbn [join map]. inversion Hfree; subst.
    rewrite <- (app_nil_r p) at 1. rewrite split_from_app_free by assumption.
    reflexivity.
  - inversion Hfree as [|? ? Hp Hrest]; subst.
    change (join (js ", ") (p :: p2 :: ps))
      with (p ++ COMMA :: SPACE :: join (js ", ") (p2 :: ps)).
    rewrite split_from_app_free by exact Hp.
    cbn [split_from]. rewrite N.eqb_refl.
    change (N.eqb SPACE COMMA) with false. cbv iota.
    rewrite (IH _ p2 Hrest). reflexivity.
Qed.

Lemma forallb_join (f : N -> bool) (sep : jsstring) (ps : list jsstring) :
  forallb f sep = true ->
  Forall (fun s => forallb f s = true) ps ->
  forallb f (join sep ps) = true.
Proof.
  intros Hsep Hps. induction Hps as [|p ps Hp Hps IH]; [reflexivity|].
  cbn [join]. destruct ps as [|p2 ps]; [exact Hp|].
  rewrite !forallb_app, Hp, Hsep, IH. reflexivity.
Qed.

Lemma trimStart_clean (s : jsstring) :
  forallb (fun c => negb (isWhiteSpace c)) s = true -> trimStart s = s.
Proof.
  destruct s as [|c s]; [reflexivity|]. simpl. intros H.
  apply andb_true_iff in H as [Hc _]. apply negb_true_iff in Hc.
  rewrite Hc. reflexivity.
Qed.

Lemma trim_clean (s : jsstring) :
  forallb (fun c => negb (isWhiteSpace c)) s = true -> trim s = s.
Proof.
  intros H. unfold trim, trimEnd. rewrite (trimStart_clean s H).
  rewrite trimStart_clean by (rewrite forallb_rev; exact H).
  apply rev_involutive.
Qed.

Lemma forallb_and (f g : N -> bool) (s : jsstring) :
  forallb (fun c => f c && g c) s = forallb f s && forallb g s.
Proof.
  induction s as [|c s IH]; [reflexivity|]. simpl. rewrite IH.
  destruct (f c), (g c), (forallb f s), (forallb g s); reflexivity.
Qed.

Lemma number_text_inv (t : jsstring) :
  number_text t = true ->
  t <> [] /\
  forallb (fun c => negb (isWhiteSpace c)) t = true /\
  free_of COMMA t = true /\ free_of LPAREN t = true /\
  free_of LESS t = true /\ free_of GREATER t = true.
Proof.
  unfold number_text, free_of. rewrite !forallb_and.
  intros H.
  repeat match goal with
         | H : _ && _ = true |- _ => apply andb_true_iff in H as [? ?]
         end.
  repeat split; try assumption. intros ->. discriminate.
Qed.

Lemma space_free_dot (s : jsstring) :
  forallb (fun c => negb (isWhiteSpace c)) s = true -> forallb dot s = true.
Proof.
  intros H. induction s as [|c s IH]; [reflexivity|]. simpl in *.
  apply andb_true_iff in H as [Hc Hs]. rewrite (IH Hs), andb_true_r.
  unfold dot, isLineTerminator. unfold isWhiteSpace in Hc.
  destruct (c =? 10)%N, (c =? 13)%N, (c =? 8232)%N, (c =? 8233)%N;
    try reflexivity; simpl in Hc; rewrite ?orb_true_r in Hc; discriminate.
Qed.

Section RoundTrip.

Variable parseFloat : jsstring -> number.
Variable Number_toString : number -> jsstring.

(** The text of a relation's value, and what the parser reads from it. *)
Local Abbreviation text_of r := (Number_toString (two_decimals (value r))).

Lemma parseEloRelation_space (s : jsstring) :
  parseEloRelation parseFloat (SPACE :: s) = parseEloRelation parseFloat s.
Proof. reflexivity. Qed.

Lemma parseEloRelation_printed (r : EloRelation) :
  op r <> nop_op ->
  number_text (text_of r) = true ->
  isNaN (parseFloat (text_of r)) = false ->
  parseEloRelation parseFloat (stringifyEloRelation Number_toString r)
  = mkRel (op r) (parseFloat (text_of r)).
Proof.
  intros Hop Htext Hnum.
  destruct (number_text_inv _ Htext) as (Hne & Hws & _ & _ & Hlt & Hgt).
  unfold parseEloRelation, stringifyEloRelation.
  assert (Hclean : forallb (fun c => negb (isWhiteSpace c))
                     (relToStr (op r) ++ text_of r) = true).
  { rewrite forallb_app, Hws. destruct (op r); reflexivity. }
  rewrite (trim_clean _ Hclean).
  destruct (op r) eqn:Hr; try contradiction; cbn [relToStr app].
  - destruct (text_of r) as [|c t] eqn:Ht; [contradiction|].
    simpl in Hlt, Hgt.
    apply andb_true_iff in Hlt as [Hlt _]. apply negb_true_iff in Hlt.
    apply andb_true_iff in Hgt as [Hgt _]. apply negb_true_iff in Hgt.
    rewrite Hlt, Hgt, Hnum. reflexivity.
  - change (N.eqb GREATER LESS) with false. rewrite N.eqb_refl. cbv iota.
    rewrite Hnum. reflexivity.
  - rewrite N.eqb_refl. rewrite Hnum. reflexivity.
Qed.

Lemma stringifyEloRelation_clean (r : EloRelation) :
  number_text (text_of r) = true ->
  free_of COMMA (stringifyEloRelation Number_toString r) = true /\
  free_of LPAREN (stringifyEloRelation Number_toString r) = true /\
  forallb dot (stringifyEloRelation Number_toString r) = true.
Proof.
  intros Htext.
  destruct (number_text_inv _ Htext) as (_ & Hws & Hc & Hp & _ & _).
  unfold stringifyEloRelation. rewrite !free_of_app, forallb_app, Hc, Hp.
  rewrite (space_free_dot _ Hws). destruct (op r); repeat split; reflexivity.
Qed.

(** What the parser reads back from the text of an item. *)
Lemma parse_printed_item (it : EloItem) :
  trim (title it) = title it ->
  forallb dot (title it) = true ->
  without_unparseable (eloRelations it) <> [] ->
  Forall (fun r => op r <> nop_op ->
            number_text (text_of r) = true /\
            isNaN (parseFloat (text_of r)) = false) (eloRelations it) ->
  parseEloItem parseFloat (stringifyEloItem Number_toString it)
  = let rels' :=
      map (fun r => mkRel (op r) (parseFloat (text_of r)))
          (without_unparseable (eloRelations it)) in
    mkItem (title it) (estimateElo rels') rels'.
Proof.
  intros Htrim Hdot Hkept Hrels.
  assert (Hall : Forall (fun r => op r <> nop_op /\
                           number_text (text_of r) = true /\
                           isNaN (parseFloat (text_of r)) = false)
                   (without_unparseable (eloRelations it))).
  { apply Forall_forall. intros r Hr. unfold without_unparseable in Hr.
    apply list_elem_of_filter in Hr as [Hop Hin].
    assert (Hop' : op r <> nop_op)
      by (intros E; rewrite E in Hop; discriminate).
    split; [exact Hop'|].
    rewrite Forall_forall in Hrels. apply (Hrels r Hin Hop'). }
  unfold stringifyEloItem.
  assert (Hlen : (0 <? length (eloRelations it))%nat = true).
  { apply Nat.ltb_lt. destruct (eloRelations it); [|simpl; lia].
    contradiction. }
  rewrite Hlen. unfold stringifyEloRelations.
  fold (without_unparseable (eloRelations it)).
  destruct (without_unparseable (eloRelations it)) as [|k ks] eqn:Hk;
    [contradiction|].
  set (pieces := map (stringifyEloRelation Number_toString) (k :: ks)).
  assert (Hpieces : Forall (fun s => free_of COMMA s = true /\
                              free_of LPAREN s = true /\
                              forallb dot s = true) pieces).
  { apply Forall_map. eapply Forall_impl; [exact Hall|].
    intros r (_ & Ht & _). apply stringifyEloRelation_clean. exact Ht. }
  change (title it ++ js " (" ++ join (js ", ") pieces ++ js ")")
    with (title it ++ [SPACE] ++ LPAREN :: join (js ", ") pieces ++ [RPAREN]).
  rewrite app_assoc. unfold parseEloItem.
  rewrite relationsMatch_shape; cycle 1.
  { intros E. apply app_eq_nil in E as [_ E]. discriminate. }
  { rewrite forallb_app, Hdot. reflexivity. }
  { apply forallb_join; [reflexivity|].
    eapply Forall_impl; [exact Hpieces|]. intros s (_ & _ & H). exact H. }
  { apply (forallb_join (fun d => negb (N.eqb d LPAREN))); [reflexivity|].
    eapply Forall_impl; [exact Hpieces|]. intros s (_ & H & _). exact H. }
  rewrite trim_app_space_r by reflexivity. rewrite Htrim.
  unfold split, pieces. cbn [map]. rewrite split_join; cycle 1.
  { change (Forall (fun s => free_of COMMA s = true) pieces).
    eapply Forall_impl; [exact Hpieces|]. intros s (H & _). exact H. }
  cbn [app map].
  assert (Hmap : forall l,
    Forall (fun r => op r <> nop_op /\ number_text (text_of r) = true /\
              isNaN (parseFloat (text_of r)) = false) l ->
    map (parseEloRelation parseFloat)
        (map (cons SPACE) (map (stringifyEloRelation Number_toString) l))
    = map (fun r => mkRel (op r) (parseFloat (text_of r))) l).
  { intros l Hl. induction Hl as [|r l (Hop & Ht & Hn) _ IH]; [reflexivity|].
    cbn [map]. rewrite parseEloRelation_space, IH.
    rewrite parseEloRelation_printed by assumption. reflexivity. }
  inversion Hall as [|? ? (Hop & Ht & Hn) Hks]; subst.
  rewrite (Hmap ks Hks). rewrite parseEloRelation_printed by assumption.
  reflexivity.
Qed.

End RoundTrip.

(** X24: parsing the text of an item gives the title back, drops the
    unparseable relations and keeps every other relation with its kind and
    with the value read from its two-decimal text; the estimate is that of
    the relations read.  The title is trimmed and on one line, one
    relation at least is not unparseable, and the host prints the values
    as number texts that it reads as numbers. *)
Theorem X24_item_round_trip (parseFloat : jsstring -> number)
    (Number_toString : number -> jsstring) (it : EloItem) :
  trim (title it) = title it ->
  forallb dot (title it) = true ->
  without_unparseable (eloRelations it) <> [] ->
  Forall (fun r => op r <> nop_op ->
            number_text (Number_toString (two_decimals (value r))) = true /\
            isNaN (parseFloat (Number_toString (two_decimals (value r))))
            = false) (eloRelations it) ->
  parseEloItem parseFloat (stringifyEloItem Number_toString it)
  = let rels' :=
      map (fun r => mkRel (op r)
                      (parseFloat (Number_toString (two_decimals (value r)))))
          (without_unparseable (eloRelations it)) in
    mkItem (title it) (estimateElo rels') rels'.
Proof. apply parse_printed_item. Qed.

Lemma X24_witness :
  let it := mkItem (js "Team (A)") (of_Z 0)
              [Gt (664537 # 1000); Nop; Lt (-31 # 10)] in
  (trim (title it) = title it /\ forallb dot (title it) = true /\
   without_unparseable (eloRelations it) <> []) /\
  title (parseEloItem parseFloat_decimal
           (stringifyEloItem toString_decimal it)) = js "Team (A)" /\
  eloRelations (parseEloItem parseFloat_decimal
                  (stringifyEloItem toString_decimal it))
  = [Gt (66453 # 100); Lt (-31 # 10)].
Proof.
  intros it.
  assert (Hkept : without_unparseable (eloRelations it) <> [])
    by discriminate.
  split; [split; [reflexivity|split; [reflexivity|exact Hkept]]|].
  assert (Hvalues :
    Forall (fun r => op r <> nop_op ->
              number_text (toString_decimal (two_decimals (value r))) = true /\
              isNaN (parseFloat_decimal
                       (toString_decimal (two_decimals (value r)))) = false)
           (eloRelations it)).
  { repeat (apply Forall_cons; split;
              [first [intros _; split; reflexivity
                     |intros H; exfalso; apply H; reflexivity]|]).
    apply Forall_nil. exact I. }
  rewrite (X24_item_round_trip parseFloat_decimal toString_decimal it
             eq_refl eq_refl Hkept Hvalues).
  split; reflexivity.
Defined.

(** X25: an item whose relations are all unparseable is written with empty
    parentheses and read back as one unparseable relation with the
    estimate 0, whatever its estimate was. *)
Theorem X25_unparseable_round_trip (parseFloat : jsstring -> number)
    (Number_toString : number -> jsstring) (it : EloItem) :
  parseFloat [] = NaN ->
  trim (title it) = title it ->
  forallb dot (title it) = true ->
  eloRelations it <> [] ->
  without_unparseable (eloRelations it) = [] ->
  parseEloItem parseFloat (stringifyEloItem Number_toString it)
  = mkItem (title it) (of_Z 0) [mkRel nop_op NaN].
Proof.
  intros Hnan Htrim Hdot Hne Hkept. unfold stringifyEloItem.
  assert (Hlen : (0 <? length (eloRelations it))%nat = true).
  { apply Nat.ltb_lt. destruct (eloRelations it); [contradiction|simpl; lia]. }
  rewrite Hlen. unfold stringifyEloRelations.
  fold (without_unparseable (eloRelations it)). rewrite Hkept.
  change (title it ++ js " (" ++ join (js ", ") (map _ []) ++ js ")")
    with (title it ++ [SPACE] ++ [LPAREN; RPAREN]).
  rewrite app_assoc, parse_empty_parentheses.
  - rewrite trim_app_space_r by reflexivity. rewrite Htrim. reflexivity.
  - exact Hnan.
  - intros E. apply app_eq_nil in E as [_ E]. discriminate.
  - rewrite forallb_app, Hdot. reflexivity.
Qed.

Lemma X25_witness :
  let it := mkItem (js "Bob") (of_Z 600) [Nop; Nop] in
  (parseFloat_decimal [] = NaN /\ trim (title it) = title it /\
   forallb dot (title it) = true /\ eloRelations it <> [] /\
   without_unparseable (eloRelations it) = []) /\
  parseEloItem parseFloat_decimal (stringifyEloItem toString_decimal it)
  = mkItem (js "Bob") (of_Z 0) [mkRel nop_op NaN].
Proof.
  intros it.
  assert (Hne : eloRelations it <> []) by discriminate.
  split; [repeat split; try reflexivity; exact Hne|].
  exact (X25_unparseable_round_trip parseFloat_decimal toString_decimal it
           eq_refl eq_refl eq_refl Hne eq_refl).
Defined.
